(** * ReverseDutchAuctionSwap: a shallow embedding of the Solidity contract

    The contract keeps a mapping from auction ids to [Auction] structs and a
    counter.  Arithmetic is Solidity 0.8 arithmetic on [uint256]: every
    subtraction, multiplication and increment is checked and panics instead
    of wrapping.  Calls that leave the contract (the ERC20 token, the native
    currency transfer) hand control to foreign code, which may call back into
    the contract before it returns; the embedding makes this explicit. *)

From Stdlib Require Import ZArith String List Lia Bool.
From stdpp Require Import base option gmap strings list.

Local Open Scope Z_scope.

(** ** Failures and the error monad *)

Inductive Failure :=
| Revert (reason : string)   (* revert("...") executed by the contract *)
| Panic (code : Z)           (* compiler-inserted check, 0x11 = arithmetic *)
| CalleeReverted             (* revert data of a callee that is neither Error(string)
                                nor Panic(uint): empty, or an error of its own *)
| DepthExceeded.             (* the call stack of the machine is exhausted *)

#[global] Instance Failure_eq_dec : EqDecision Failure.
Proof. solve_decision. Defined.

Definition ARITHMETIC : Z := 17.   (* Panic(0x11) *)

Definition ret {A} (a : A) : Failure + A := inr a.
Definition revert {A} (reason : string) : Failure + A := inl (Revert reason).
Definition bind {A B} (m : Failure + A) (f : A -> Failure + B) : Failure + B :=
  match m with
  | inl e => inl e
  | inr a => f a
  end.

Notation "'let*' x ':=' m 'in' k" := (bind m (fun x => k))
  (at level 10, x pattern, m at level 200, k at level 200, only parsing).

(** ** uint256 *)

Definition MAX_UINT256 : Z := 2 ^ 256 - 1.

Definition checked_sub (a b : Z) : Failure + Z :=
  if a <? b then inl (Panic ARITHMETIC) else ret (a - b).

Definition checked_mul (a b : Z) : Failure + Z :=
  if MAX_UINT256 <? a * b then inl (Panic ARITHMETIC) else ret (a * b).

Definition checked_inc (a : Z) : Failure + Z :=
  if MAX_UINT256 <? a + 1 then inl (Panic ARITHMETIC) else ret (a + 1).

(** ** Storage *)

Record Auction := {
  seller : Z;
  token : Z;
  initialPrice : Z;
  startTime : Z;
  duration : Z;
  decayRate : Z;
  amount : Z;
  active : bool
}.

#[global] Instance Auction_eq_dec : EqDecision Auction.
Proof. solve_decision. Defined.

(** A mapping slot that was never written reads as the all-zero struct. *)
Definition zeroAuction : Auction :=
  {| seller := 0; token := 0; initialPrice := 0; startTime := 0;
     duration := 0; decayRate := 0; amount := 0; active := false |}.

Inductive Event :=
| AuctionCreated (auctionId sender tok price dur rate amt : Z)
| AuctionFinalized (auctionId buyer finalPrice : Z)
| AuctionCancelled (auctionId : Z).

#[global] Instance Event_eq_dec : EqDecision Event.
Proof. solve_decision. Defined.

(** Calls the contract makes to foreign code. *)
Inductive Outcall :=
| TokenTransferFrom (tok from amt : Z)   (* token.transferFrom(from, address(this), amt) *)
| TokenTransfer (tok to amt : Z)         (* token.transfer(to, amt) *)
| NativeTransfer (to amt : Z).           (* payable(to).transfer(amt) *)

#[global] Instance Outcall_eq_dec : EqDecision Outcall.
Proof. solve_decision. Defined.

(** The contract state together with what a transaction leaves behind: the
    emitted events and the outbound calls, each tagged with the depth of the
    frame that issued it.  All of it is discarded when the frame reverts. *)
Record State := {
  auctions : gmap Z Auction;
  auctionCount : Z;
  events : list Event;
  trace : list (nat * Outcall)
}.

#[global] Instance State_eq_dec : EqDecision State.
Proof. solve_decision. Defined.

Definition init : State :=
  {| auctions := ∅; auctionCount := 0; events := []; trace := [] |}.

(** [auctions[auctionId]] *)
Definition slot (st : State) (auctionId : Z) : Auction :=
  default zeroAuction (auctions st !! auctionId).

Definition store (auctionId : Z) (a : Auction) (st : State) : State :=
  {| auctions := <[auctionId := a]> (auctions st); auctionCount := auctionCount st;
     events := events st; trace := trace st |}.

Definition deactivate (a : Auction) : Auction :=
  {| seller := seller a; token := token a; initialPrice := initialPrice a;
     startTime := startTime a; duration := duration a; decayRate := decayRate a;
     amount := amount a; active := false |}.

Definition set_count (n : Z) (st : State) : State :=
  {| auctions := auctions st; auctionCount := n;
     events := events st; trace := trace st |}.

Definition emit (e : Event) (st : State) : State :=
  {| auctions := auctions st; auctionCount := auctionCount st;
     events := events st ++ [e]; trace := trace st |}.

Definition record_call (depth : nat) (o : Outcall) (st : State) : State :=
  {| auctions := auctions st; auctionCount := auctionCount st;
     events := events st; trace := trace st ++ [(depth, o)] |}.

(** ** The contract *)

Definition NotActive : Failure := Revert "Auction not active".
Definition NotSeller : Failure := Revert "Not seller".
Definition PriceWouldReachZero : Failure := Revert "Price would reach zero".
Definition AuctionExpired : Failure := Revert "Auction expired".
Definition InsufficientPayment : Failure := Revert "Insufficient payment".

Section Contract.
(** How an outbound call is answered: it fails, or it returns a boolean
    and the state the contract is in when control comes back. *)
Variable extcall : Outcall -> State -> Failure + (State * bool).
(** [block.timestamp] *)
Variable now : Z.
(** Depth of the executing frame in the call stack. *)
Variable depth : nat.

(** An outbound call: it is entered in the trace and control goes to the
    callee.  A callee that reverts makes the caller revert. *)
Definition call (o : Outcall) (st : State) : Failure + (State * bool) :=
  extcall o (record_call depth o st).

(** The boolean [transferFrom] returns is not looked at, and the counter is
    read after the token call has returned. *)
Definition createAuction (sender token initialPrice duration decayRate amount : Z)
    (st : State) : Failure + (State * Z) :=
  if initialPrice <=? 0 then revert "Invalid initial price"
  else if duration <=? 0 then revert "Invalid duration"
  else if decayRate <=? 0 then revert "Invalid decay rate"
  else if amount <=? 0 then revert "Invalid amount"
  else
    let* limit := checked_mul duration decayRate in
    if initialPrice <=? limit then revert "Price would reach zero"
    else
      let* (st1, _) := call (TokenTransferFrom token sender amount) st in
      let auctionId := auctionCount st1 in
      let* next := checked_inc auctionId in
      let st2 := set_count next st1 in
      let st3 := store auctionId
        {| seller := sender; token := token; initialPrice := initialPrice;
           startTime := now; duration := duration; decayRate := decayRate;
           amount := amount; active := true |} st2 in
      ret (emit (AuctionCreated auctionId sender token initialPrice duration
                   decayRate amount) st3, auctionId).

Definition getCurrentPrice (auctionId : Z) (st : State) : Failure + Z :=
  let auction := slot st auctionId in
  if negb (active auction) then revert "Auction not active"
  else
    let* elapsedTime := checked_sub now (startTime auction) in
    if duration auction <=? elapsedTime then ret 0
    else
      let* priceDrop := checked_mul elapsedTime (decayRate auction) in
      if initialPrice auction <=? priceDrop then ret 0
      else checked_sub (initialPrice auction) priceDrop.

(** [auction] is a storage pointer: every read goes to the storage as it
    is at that moment, also after an outbound call has returned. *)
Definition buy (sender value auctionId : Z) (st : State) : Failure + State :=
  if negb (active (slot st auctionId)) then revert "Auction not active"
  else
    let* currentPrice := getCurrentPrice auctionId st in
    if currentPrice <=? 0 then revert "Auction expired"
    else if value <? currentPrice then revert "Insufficient payment"
    else
      let st1 := store auctionId (deactivate (slot st auctionId)) st in
      let* (st2, _) := call (TokenTransfer (token (slot st1 auctionId)) sender
                           (amount (slot st1 auctionId))) st1 in
      let* (st3, _) := call (NativeTransfer (seller (slot st2 auctionId)) currentPrice) st2 in
      let* st4 := (if currentPrice <? value
              then let* refund := checked_sub value currentPrice in
                   let* (st4, _) := call (NativeTransfer sender refund) st3 in
                   ret st4
              else ret st3) in
      ret (emit (AuctionFinalized auctionId sender currentPrice) st4).

Definition cancelAuction (sender auctionId : Z) (st : State) : Failure + State :=
  if negb (sender =? seller (slot st auctionId)) then revert "Not seller"
  else if negb (active (slot st auctionId)) then revert "Auction not active"
  else
    let st1 := store auctionId (deactivate (slot st auctionId)) st in
    let* (st2, _) := call (TokenTransfer (token (slot st1 auctionId))
                         (seller (slot st1 auctionId))
                         (amount (slot st1 auctionId))) st1 in
    ret (emit (AuctionCancelled auctionId) st2).
End Contract.

(** ** Transactions and reentrancy *)

(** The external entry points of the contract with their arguments;
    [sender] is [msg.sender] and [value] is [msg.value]. *)
Inductive Call :=
| CreateAuction (sender token initialPrice duration decayRate amount : Z)
| GetCurrentPrice (auctionId : Z)
| Buy (sender value auctionId : Z)
| CancelAuction (sender auctionId : Z).

(** What a call gives back: a failure, or the new state and the returned
    word (0 for the functions that return nothing). *)
Definition Outcome : Type := Failure + (State * Z).

(** What foreign code does when the contract calls it: it returns, it
    reverts with data of its choice, which may read like one of the
    contract's own failures, or it first calls back into the contract and
    goes on from what that call gave it.  Every callee may do so, also the
    receiver of a native transfer, whose gas stipend makes it unlikely in
    practice: the properties below hold for the larger class. *)
Inductive Script :=
| Return (ok : bool)
| Throw (data : Failure)
| Reenter (c : Call) (k : Outcome -> Script).

(** The world outside the contract: for each outbound call and the contract
    state at that moment, the script the callee runs. *)
Definition Env : Type := Outcall -> State -> Script.

Definition after (r : Outcome) (st : State) : State :=
  match r with
  | inr (st', _) => st'
  | inl _ => st
  end.

(** Runs a script.  A nested call that fails leaves the state as it was.
    When the callee reverts, the contract's high-level call reverts with the
    callee's revert data, unchanged. *)
Fixpoint play (nested : Call -> State -> Outcome) (s : Script) (st : State)
    : Failure + (State * bool) :=
  match s with
  | Return ok => ret (st, ok)
  | Throw data => inl data
  | Reenter c k => play nested (k (nested c st)) (after (nested c st) st)
  end.

Definition dispatch (extcall : Outcall -> State -> Failure + (State * bool))
    (now : Z) (depth : nat) (c : Call) (st : State) : Outcome :=
  match c with
  | CreateAuction sender token initialPrice duration decayRate amount =>
      createAuction extcall now depth sender token initialPrice duration decayRate amount st
  | GetCurrentPrice auctionId =>
      let* price := getCurrentPrice now auctionId st in ret (st, price)
  | Buy sender value auctionId =>
      let* st' := buy extcall now depth sender value auctionId st in ret (st', 0)
  | CancelAuction sender auctionId =>
      let* st' := cancelAuction extcall depth sender auctionId st in ret (st', 0)
  end.

(** [run env now fuel depth c st] executes the call [c] in a frame at depth
    [depth]; [fuel] is the number of frames the call stack can still take
    below this one.  A nested call with no frame left fails at once. *)
Fixpoint run (env : Env) (now : Z) (fuel depth : nat) (c : Call) (st : State) : Outcome :=
  dispatch
    (fun o s =>
       play (match fuel with
             | O => fun _ _ => inl DepthExceeded
             | S fuel' => run env now fuel' (S depth)
             end) (env o s) s)
    now depth c st.

(** How a call that foreign code makes back into the contract is executed,
    seen from a frame at depth [depth] with [fuel] frames left. *)
Definition nested (env : Env) (now : Z) (fuel depth : nat) : Call -> State -> Outcome :=
  match fuel with
  | O => fun _ _ => inl DepthExceeded
  | S fuel' => run env now fuel' (S depth)
  end.

(** How the outbound calls of that frame are answered. *)
Definition extcall_of (env : Env) (now : Z) (fuel depth : nat)
    (o : Outcall) (s : State) : Failure + (State * bool) :=
  play (nested env now fuel depth) (env o s) s.

(** Environments used in the examples: a world where every outbound call
    succeeds, a token that reports failure in its return value, and a world
    where every outbound call reverts. *)
Definition honest : Env := fun _ _ => Return true.
Definition refusing : Env := fun o _ =>
  match o with
  | NativeTransfer _ _ => Return true
  | _ => Return false   (* the token reports failure without reverting *)
  end.
Definition reverting : Env := fun _ _ => Throw CalleeReverted.

(** Runs a list of top-level calls in order, skipping those that fail. *)
Fixpoint run_all (env : Env) (now : Z) (fuel : nat) (cs : list Call) (st : State) : State :=
  match cs with
  | [] => st
  | c :: cs' => run_all env now fuel cs' (after (run env now fuel 0 c st) st)
  end.

(** ** Vocabulary of the properties *)

(** The price formula as the specification words it, for an auction with
    initial price [P], decay rate [D] and duration [T], [t] after its start. *)
Definition spec_price (P D T t : Z) : Z :=
  if t <? T then Z.max 0 (P - t * D) else 0.

(** What [createAuction] checks before it stores a record. *)
Definition sound (a : Auction) : Prop :=
  0 < duration a /\ 0 < decayRate a /\ 0 < amount a /\
  duration a * decayRate a <= MAX_UINT256 /\
  duration a * decayRate a < initialPrice a.

(** Every stored record sits at an id the counter has already handed out
    and passed the checks of [createAuction]. *)
Definition wf (st : State) : Prop :=
  map_Forall (fun id a => id < auctionCount st /\ sound a) (auctions st).

(** States the contract can be in: the initial one and whatever successful
    top-level transactions make of it, in any environment at any time. *)
Inductive reachable : State -> Prop :=
| reachable_init : reachable init
| reachable_step env now fuel c st st' v :
    reachable st -> run env now fuel 0 c st = inr (st', v) -> reachable st'.

(** [later st st']: [st'] comes after [st] through successful calls. *)
Inductive later (st : State) : State -> Prop :=
| later_refl : later st st
| later_step env now fuel depth c st1 st2 v :
    later st st1 -> run env now fuel depth c st1 = inr (st2, v) -> later st st2.

(** The auction was created and is no longer active. *)
Definition settled (auctionId : Z) (st : State) : Prop :=
  auctionId < auctionCount st /\ active (slot st auctionId) = false.

(** The calls that try to end an auction. *)
Definition settles (c : Call) (auctionId : Z) : Prop :=
  match c with
  | Buy _ _ i | CancelAuction _ i => i = auctionId
  | _ => False
  end.

(** The failure the contract answers such a call with once the auction is
    no longer active: [cancelAuction] looks at the caller first. *)
Definition rejection (c : Call) (st : State) : Failure :=
  match c with
  | CancelAuction sender i =>
      if sender =? seller (slot st i) then NotActive else NotSeller
  | _ => NotActive
  end.

Definition terminal (auctionId : Z) (e : Event) : bool :=
  match e with
  | AuctionFinalized i _ _ | AuctionCancelled i => i =? auctionId
  | AuctionCreated _ _ _ _ _ _ _ => false
  end.

Definition count_terminal (auctionId : Z) (evs : list Event) : nat :=
  length (filter (fun e => terminal auctionId e = true) evs).

(** An environment that lets foreign code run only when the auction is
    already inactive, and reverts otherwise. *)
Definition guard (auctionId : Z) (env : Env) : Env :=
  fun o s => if active (slot s auctionId) then Throw CalleeReverted else env o s.

(** The outbound calls a frame at depth [depth] issued itself. *)
Definition own (depth : nat) (t : list (nat * Outcall)) : list Outcall :=
  map snd (filter (fun e => fst e = depth) t).

(** [extends depth st st']: what a successful call, or an outbound call made
    from a frame at depth [depth], may do to the state. *)
Record extends (depth : nat) (st st' : State) : Prop := {
  ext_count : auctionCount st <= auctionCount st';
  ext_slot : forall id, id < auctionCount st ->
      slot st' id = slot st id \/ slot st' id = deactivate (slot st id);
  ext_events : exists evs, events st' = events st ++ evs /\
      forall id, settled id st -> count_terminal id evs = 0%nat;
  ext_trace : exists new, trace st' = trace st ++ new /\
      Forall (fun e => (depth <= fst e)%nat) new;
  ext_wf : wf st -> wf st'
}.

(** ** Example states *)

(** One auction, created at time 100 by seller 7 for 10 units of token 9:
    initial price 1000, duration 100, decay rate 9. *)
Definition s_created : State :=
  run_all honest 100 3 [CreateAuction 7 9 1000 100 9 10] init.

(** The same auction after buyer 8 bought it at time 150. *)
Definition s_sold : State :=
  run_all honest 150 3 [Buy 8 600 0] s_created.

(** The same auction after its seller cancelled it at time 150 instead. *)
Definition s_cancelled : State :=
  run_all honest 150 3 [CancelAuction 7 0] s_created.

(** A token that, while it is asked to transfer, calls back into the
    contract: it tries to buy auction 0 again and then to cancel it in the
    seller's name, and lets the transfer succeed only if both attempts were
    answered with "Auction not active". *)
Definition reentering : Env := fun o _ =>
  match o with
  | TokenTransfer _ _ _ =>
      Reenter (Buy 66 1000 0) (fun r1 =>
      Reenter (CancelAuction 7 0) (fun r2 =>
        match r1, r2 with
        | inl e1, inl e2 =>
            if decide (e1 = NotActive /\ e2 = NotActive)
            then Return true else Throw CalleeReverted
        | _, _ => Throw CalleeReverted
        end))
  | _ => Return true
  end.

(** A token that, while the auction contract pulls in the escrow of
    account 1, lets account 7 create an auction of its own and cancel it at
    once, both as calls back into the contract. *)
Definition nesting : Env := fun o _ =>
  match o with
  | TokenTransferFrom _ from _ =>
      if from =? 1
      then Reenter (CreateAuction 7 9 1000 100 9 10) (fun _ =>
           Reenter (CancelAuction 7 0) (fun _ => Return true))
      else Return true
  | _ => Return true
  end.

(** A token that reverts its [transfer] with the text of one of the
    contract's own failures. *)
Definition mimicking (reason : string) : Env := fun o _ =>
  match o with
  | TokenTransfer _ _ _ => Throw (Revert reason)
  | _ => Return true
  end.

(** ** Vocabulary of the further properties *)

(** A world without callbacks in which every outbound call returns. *)
Definition quiet (env : Env) : Prop :=
  forall o s, exists ok, env o s = Return ok.

(** [settled] as a test. *)
Definition settledb (auctionId : Z) (st : State) : bool :=
  (auctionId <? auctionCount st) && negb (active (slot st auctionId)).

(** [tripping id extcall] answers outbound calls as [extcall] does, except
    that it makes the calling frame fail as soon as an outbound call comes
    back with the auction [id] settled. *)
Definition tripping (auctionId : Z)
    (extcall : Outcall -> State -> Failure + (State * bool))
    : Outcall -> State -> Failure + (State * bool) :=
  fun o s =>
    match extcall o s with
    | inr (s', ok) => if settledb auctionId s' then inl CalleeReverted else inr (s', ok)
    | inl e => inl e
    end.

(** The ids the [AuctionCreated] events of a log carry, in order. *)
Definition created_ids (evs : list Event) : list Z :=
  omap (fun e => match e with
                 | AuctionCreated i _ _ _ _ _ _ => Some i
                 | _ => None
                 end) evs.

(** The [AuctionCreated] event that belongs to a stored record. *)
Definition announcement (auctionId : Z) (a : Auction) : Event :=
  AuctionCreated auctionId (seller a) (token a) (initialPrice a) (duration a)
    (decayRate a) (amount a).

(** The books of the contract for one token: what an outbound call asks in
    (positive) or sends out (negative), summed over a trace. *)
Definition flow (tok : Z) (o : Outcall) : Z :=
  match o with
  | TokenTransferFrom t _ amt => if t =? tok then amt else 0
  | TokenTransfer t _ amt => if t =? tok then - amt else 0
  | NativeTransfer _ _ => 0
  end.

Definition held (tok : Z) (t : list (nat * Outcall)) : Z :=
  foldr (fun e acc => flow tok (snd e) + acc) 0 t.

(** What the active auctions of a token have in escrow. *)
Definition stake (tok : Z) (a : Auction) : Z :=
  if active a && (token a =? tok) then amount a else 0.

Definition locked (tok : Z) (st : State) : Z :=
  map_fold (fun _ a acc => stake tok a + acc) 0 (auctions st).

(** The native currency a list of outbound calls sends out. *)
Definition native_total (os : list Outcall) : Z :=
  foldr (fun o acc => match o with
                      | NativeTransfer _ amt => amt + acc
                      | _ => acc
                      end) 0 os.

(** The counter, the mapping and the log of creations fit together. *)
Definition ledger (st : State) : Prop :=
  0 <= auctionCount st <= MAX_UINT256 /\
  (forall id, is_Some (auctions st !! id) <-> 0 <= id < auctionCount st) /\
  created_ids (events st) = seqZ 0 (auctionCount st) /\
  (forall id a, auctions st !! id = Some a -> announcement id a ∈ events st).

(** Between [st] and [st'] the log grew by one terminal notification for
    each auction that was settled in between, and by none for the others. *)
Definition accounted (st st' : State) : Prop :=
  exists evs, events st' = events st ++ evs /\
    forall id, count_terminal id evs =
      if settledb id st then 0%nat else if settledb id st' then 1%nat else 0%nat.

(** [steady_after st st']: [st'] is well formed, what was settled in [st] is
    settled in [st'], and the log accounts for what was settled between. *)
Definition steady_after (st st' : State) : Prop :=
  wf st' /\ (forall id, settledb id st = true -> settledb id st' = true) /\ accounted st st'.

(** The books of a token against the escrow of its active auctions. *)
Definition books (tok : Z) (st : State) : Z :=
  held tok (trace st) - locked tok st.

(** ** Basic facts *)

Lemma bind_inr {A B} (m : Failure + A) (f : A -> Failure + B) (b : B) :
  bind m f = inr b -> exists a, m = inr a /\ f a = inr b.
Proof. destruct m as [e|a]; simpl; [discriminate | eauto]. Qed.

(** Takes a successful run of monadic code apart, one bind or test at a time. *)
Ltac invert_ok :=
  repeat match goal with
  | H : bind _ _ = inr _ |- _ =>
      let a := fresh "a" in let Ha := fresh "Hcall" in
      apply bind_inr in H; destruct H as (a & Ha & H)
  | H : (let '(_, _) := ?p in _) = inr _ |- _ => destruct p
  | H : (if ?b then _ else _) = inr _ |- _ =>
      let Hb := fresh "Hif" in destruct b eqn:Hb
  | H : revert _ = inr _ |- _ => discriminate H
  | H : inl _ = inr _ |- _ => discriminate H
  | H : ret _ = inr _ |- _ => unfold ret in H
  | H : inr _ = inr _ |- _ => injection H as H; subst
  end.

Lemma slot_store_eq id a st : slot (store id a st) id = a.
Proof. unfold slot, store; simpl. by rewrite lookup_insert_eq. Qed.

Lemma slot_store_ne id id' a st : id <> id' -> slot (store id a st) id' = slot st id'.
Proof. intros Hne. unfold slot, store; simpl. by rewrite lookup_insert_ne. Qed.

Lemma active_stored st id : active (slot st id) = true -> is_Some (auctions st !! id).
Proof. unfold slot. destruct (auctions st !! id); simpl; [eauto | discriminate]. Qed.

Lemma wf_active st id : wf st -> active (slot st id) = true -> id < auctionCount st.
Proof.
  intros Hwf Hact. destruct (active_stored _ _ Hact) as [a Ha].
  exact (proj1 (Hwf id a Ha)).
Qed.

Lemma wf_sound st id : wf st -> active (slot st id) = true -> sound (slot st id).
Proof.
  intros Hwf Hact. destruct (active_stored _ _ Hact) as [a Ha].
  unfold slot. rewrite Ha. exact (proj2 (Hwf id a Ha)).
Qed.

Lemma count_terminal_app id evs1 evs2 :
  count_terminal id (evs1 ++ evs2) = (count_terminal id evs1 + count_terminal id evs2)%nat.
Proof. unfold count_terminal. by rewrite filter_app, length_app. Qed.

Lemma wf_init : wf init.
Proof. unfold wf, init; simpl. apply map_Forall_empty. Qed.

(** ** What calls may do to the state *)

Lemma extends_refl d st : extends d st st.
Proof.
  split; auto.
  - lia.
  - exists []. rewrite app_nil_r. auto.
  - exists []. rewrite app_nil_r. auto.
Qed.

Lemma extends_settled d st st' id : extends d st st' -> settled id st -> settled id st'.
Proof.
  intros Hext [Hlt Hina]. split.
  - pose proof (ext_count _ _ _ Hext). lia.
  - destruct (ext_slot _ _ _ Hext id Hlt) as [-> | ->]; [done | reflexivity].
Qed.

Lemma extends_trans d st1 st2 st3 :
  extends d st1 st2 -> extends d st2 st3 -> extends d st1 st3.
Proof.
  intros H12 H23. split.
  - pose proof (ext_count _ _ _ H12). pose proof (ext_count _ _ _ H23). lia.
  - intros id Hlt. pose proof (ext_count _ _ _ H12).
    destruct (ext_slot _ _ _ H12 id Hlt) as [E1 | E1];
      (destruct (ext_slot _ _ _ H23 id) as [E2 | E2]; [lia | ..]);
      rewrite E2, E1; auto.
  - destruct (ext_events _ _ _ H12) as (e1 & E1 & Z1).
    destruct (ext_events _ _ _ H23) as (e2 & E2 & Z2).
    exists (e1 ++ e2). split; [by rewrite E2, E1, app_assoc |].
    intros id Hs. rewrite count_terminal_app, (Z1 id Hs), (Z2 id); eauto using extends_settled.
  - destruct (ext_trace _ _ _ H12) as (t1 & T1 & F1).
    destruct (ext_trace _ _ _ H23) as (t2 & T2 & F2).
    exists (t1 ++ t2). split; [by rewrite T2, T1, app_assoc |].
    apply Forall_app; auto.
  - intros Hwf. apply (ext_wf _ _ _ H23), (ext_wf _ _ _ H12), Hwf.
Qed.

Lemma extends_shallower d st st' : extends (S d) st st' -> extends d st st'.
Proof.
  intros H. split; try apply H.
  destruct (ext_trace _ _ _ H) as (t & T & F). exists t. split; [done |].
  eapply Forall_impl; [exact F |]. simpl. intros; lia.
Qed.

Lemma extends_record_call d o st : extends d st (record_call d o st).
Proof.
  split; simpl; auto.
  - lia.
  - exists []. rewrite app_nil_r. auto.
  - exists [(d, o)]. split; [done |]. repeat constructor.
Qed.

Lemma extends_emit d e st :
  (forall id, settled id st -> terminal id e = false) -> extends d st (emit e st).
Proof.
  intros He. split; simpl; auto.
  - lia.
  - exists [e]. split; [done |]. intros id Hs. unfold count_terminal.
    rewrite filter_cons. rewrite (He id Hs). by case_decide.
  - exists []. rewrite app_nil_r. auto.
Qed.

Lemma extends_deactivate d id st :
  active (slot st id) = true -> extends d st (store id (deactivate (slot st id)) st).
Proof.
  intros Hact. split; simpl.
  - lia.
  - intros id' _. destruct (decide (id = id')) as [<- | Hne].
    + rewrite slot_store_eq. auto.
    + rewrite slot_store_ne; auto.
  - exists []. rewrite app_nil_r. auto.
  - exists []. rewrite app_nil_r. auto.
  - intros Hwf. unfold wf; simpl. apply map_Forall_insert_2; [| exact Hwf].
    split; [by apply wf_active | by apply wf_sound].
Qed.

Lemma extends_create d a next st :
  auctionCount st < next -> sound a ->
  extends d st (store (auctionCount st) a (set_count next st)).
Proof.
  intros Hnext Ha. split; simpl.
  - lia.
  - intros id Hlt. left. rewrite slot_store_ne by lia. reflexivity.
  - exists []. rewrite app_nil_r. auto.
  - exists []. rewrite app_nil_r. auto.
  - intros Hwf. unfold wf; simpl. apply map_Forall_insert_2; [split; [lia | done] |].
    intros k x Hk. destruct (Hwf k x Hk) as [Hlt Hx]. split; [lia | done].
Qed.

Section Frames.
Variable extcall : Outcall -> State -> Failure + (State * bool).
Variable now : Z.
Variable depth : nat.
Hypothesis extcall_extends :
  forall o s s' b, extcall o s = inr (s', b) -> extends (S depth) s s'.

Lemma call_extends o s s' b :
  call extcall depth o s = inr (s', b) -> extends depth s s'.
Proof.
  unfold call. intros H. eapply extends_trans.
  - apply extends_record_call.
  - apply extends_shallower. eauto.
Qed.

Lemma checked_inc_gt a n : checked_inc a = inr n -> a < n.
Proof. unfold checked_inc. destruct (_ <? _); [discriminate |]. intros [= <-]. lia. Qed.

Lemma createAuction_extends sender tok P T D amt st st' v :
  createAuction extcall now depth sender tok P T D amt st = inr (st', v) ->
  extends depth st st'.
Proof.
  unfold createAuction. intros H. invert_ok.
  eapply extends_trans; [eapply call_extends; eauto |].
  eapply extends_trans; [| apply extends_emit; reflexivity].
  apply extends_create; [eapply checked_inc_gt; eauto |].
  unfold checked_mul in Hcall. destruct (MAX_UINT256 <? T * D) eqn:E; [discriminate |].
  injection Hcall as <-. unfold sound; simpl. lia.
Qed.

Lemma refund_extends (b : bool) sender value price st st' :
  (if b
   then let* refund := checked_sub value price in
        let* (st4, _) := call extcall depth (NativeTransfer sender refund) st in
        ret st4
   else ret st) = inr st' ->
  extends depth st st'.
Proof.
  intros H. destruct b; invert_ok.
  - eapply call_extends; eauto.
  - apply extends_refl.
Qed.

(** The steps of a successful [buy], in order. *)
Lemma buy_inv sender value id st st' :
  buy extcall now depth sender value id st = inr st' ->
  let st1 := store id (deactivate (slot st id)) st in
  exists price st2 b2 st3 b3 st4,
    active (slot st id) = true /\
    getCurrentPrice now id st = inr price /\
    0 < price <= value /\
    call extcall depth (TokenTransfer (token (slot st1 id)) sender
                          (amount (slot st1 id))) st1 = inr (st2, b2) /\
    call extcall depth (NativeTransfer (seller (slot st2 id)) price) st2 = inr (st3, b3) /\
    (if price <? value
     then exists b4, call extcall depth (NativeTransfer sender (value - price)) st3
                     = inr (st4, b4)
     else st4 = st3) /\
    st' = emit (AuctionFinalized id sender price) st4.
Proof.
  intros H st1. unfold buy in H.
  destruct (active (slot st id)) eqn:Hact; simpl in H; [| discriminate].
  apply bind_inr in H as (price & Hprice & H).
  destruct (price <=? 0) eqn:Hpos; [discriminate |].
  destruct (value <? price) eqn:Hpay; [discriminate |].
  apply bind_inr in H as ([st2 b2] & Hc2 & H).
  apply bind_inr in H as ([st3 b3] & Hc3 & H).
  apply bind_inr in H as (st4 & Hc4 & H).
  injection H as <-.
  exists price, st2, b2, st3, b3, st4.
  repeat split; auto; try lia.
  destruct (price <? value) eqn:Hover.
  - apply bind_inr in Hc4 as (refund & Hsub & Hc4).
    apply bind_inr in Hc4 as ([st4' b4] & Hc4 & Heq).
    injection Heq as ->. unfold checked_sub in Hsub.
    destruct (value <? price); [discriminate |]. injection Hsub as <-.
    eauto.
  - by injection Hc4.
Qed.

Lemma cancelAuction_inv sender id st st' :
  cancelAuction extcall depth sender id st = inr st' ->
  let st1 := store id (deactivate (slot st id)) st in
  exists st2 b2,
    sender = seller (slot st id) /\
    active (slot st id) = true /\
    call extcall depth (TokenTransfer (token (slot st1 id)) (seller (slot st1 id))
                          (amount (slot st1 id))) st1 = inr (st2, b2) /\
    st' = emit (AuctionCancelled id) st2.
Proof.
  intros H st1. unfold cancelAuction in H.
  destruct (sender =? seller (slot st id)) eqn:Hs; simpl in H; [| discriminate].
  destruct (active (slot st id)) eqn:Hact; simpl in H; [| discriminate].
  apply bind_inr in H as ([st2 b2] & Hc2 & H). injection H as <-.
  exists st2, b2. repeat split; auto. lia.
Qed.

Lemma extends_emit_terminal e id st st' :
  terminal id e = true ->
  (forall id', id' <> id -> terminal id' e = false) ->
  active (slot st id) = true ->
  extends depth st st' -> extends depth st (emit e st').
Proof.
  intros Hid Hother Hact Hext. split; simpl; try apply Hext.
  - destruct (ext_events _ _ _ Hext) as (evs & E & Z0).
    exists (evs ++ [e]). split; [by rewrite E, app_assoc |].
    intros id' Hs. rewrite count_terminal_app, (Z0 id' Hs). simpl.
    unfold count_terminal. rewrite filter_cons, Hother.
    + by case_decide.
    + intros ->. destruct Hs as [_ Hs]. congruence.
Qed.

Lemma terminal_other id id' : id' <> id -> (id =? id') = false.
Proof. intros. apply Z.eqb_neq. congruence. Qed.

Lemma buy_extends sender value id st st' :
  buy extcall now depth sender value id st = inr st' -> extends depth st st'.
Proof.
  intros H. apply buy_inv in H as (price & st2 & b2 & st3 & b3 & st4 & Hact & _ & _
                                    & Hc2 & Hc3 & Hc4 & ->).
  apply extends_emit_terminal with (id := id); simpl; auto using Z.eqb_refl, terminal_other.
  eapply extends_trans; [apply extends_deactivate; exact Hact |].
  eapply extends_trans; [eapply call_extends; eauto |].
  eapply extends_trans; [eapply call_extends; eauto |].
  destruct (price <? value).
  - destruct Hc4 as [b4 Hc4]. eapply call_extends; eauto.
  - subst. apply extends_refl.
Qed.

Lemma cancelAuction_extends sender id st st' :
  cancelAuction extcall depth sender id st = inr st' -> extends depth st st'.
Proof.
  intros H. apply cancelAuction_inv in H as (st2 & b2 & _ & Hact & Hc2 & ->).
  apply extends_emit_terminal with (id := id); simpl; auto using Z.eqb_refl, terminal_other.
  eapply extends_trans; [apply extends_deactivate; exact Hact |].
  eapply call_extends; eauto.
Qed.

Lemma dispatch_extends c st st' v :
  dispatch extcall now depth c st = inr (st', v) -> extends depth st st'.
Proof.
  destruct c; simpl; intros H.
  - eapply createAuction_extends; eauto.
  - apply bind_inr in H as (p & _ & [= <- _]). apply extends_refl.
  - apply bind_inr in H as (s & H & [= <- _]). eapply buy_extends; eauto.
  - apply bind_inr in H as (s & H & [= <- _]). eapply cancelAuction_extends; eauto.
Qed.
End Frames.

Lemma play_extends d nested s st st' b :
  (forall c s1 s2 v, nested c s1 = inr (s2, v) -> extends d s1 s2) ->
  play nested s st = inr (st', b) -> extends d st st'.
Proof.
  intros Hn. revert st. induction s as [ok | data | c k IH]; simpl; intros st H.
  - injection H as <- _. apply extends_refl.
  - discriminate.
  - eapply extends_trans; [| eapply IH; exact H].
    destruct (nested c st) as [e | [s2 v]] eqn:E; simpl.
    + apply extends_refl.
    + eauto.
Qed.

Lemma run_unfold env now fuel depth c st :
  run env now fuel depth c st = dispatch (extcall_of env now fuel depth) now depth c st.
Proof. destruct fuel; reflexivity. Qed.

Lemma run_extends env now fuel : forall depth c st st' v,
  run env now fuel depth c st = inr (st', v) -> extends depth st st'.
Proof.
  induction fuel as [| fuel IH]; intros depth c st st' v; rewrite run_unfold;
    apply dispatch_extends; intros o s s' b; unfold extcall_of; apply play_extends; simpl.
  - discriminate.
  - intros c1 s1 s2 v1. apply IH.
Qed.

Lemma extcall_of_extends env now fuel depth o s s' b :
  extcall_of env now fuel depth o s = inr (s', b) -> extends (S depth) s s'.
Proof.
  unfold extcall_of. apply play_extends. destruct fuel; simpl.
  - discriminate.
  - intros c1 s1 s2 v1. apply run_extends.
Qed.

Lemma reachable_wf st : reachable st -> wf st.
Proof.
  induction 1 as [| env now fuel c st st' v _ IH Hrun].
  - apply wf_init.
  - exact (ext_wf _ _ _ (run_extends _ _ _ _ _ _ _ _ Hrun) IH).
Qed.

Lemma s_created_wf : wf s_created.
Proof.
  apply reachable_wf.
  apply (reachable_step honest 100 3 (CreateAuction 7 9 1000 100 9 10) init s_created 0);
    [constructor | vm_compute; reflexivity].
Qed.

Lemma later_extends st st' : later st st' -> extends 0 st st'.
Proof.
  induction 1 as [| env now fuel depth c st1 st2 v _ IH Hrun].
  - apply extends_refl.
  - eapply extends_trans; [exact IH |].
    apply run_extends in Hrun. clear -Hrun.
    induction depth; [exact Hrun |].
    split; try apply Hrun.
    destruct (ext_trace _ _ _ Hrun) as (t & T & F). exists t. split; [done |].
    eapply Forall_impl; [exact F |]. simpl. intros; lia.
Qed.

(** ** The price *)

Lemma getCurrentPrice_returns now id st p :
  active (slot st id) = true ->
  getCurrentPrice now id st = inr p ->
  0 <= now - startTime (slot st id) /\
  p = spec_price (initialPrice (slot st id)) (decayRate (slot st id))
        (duration (slot st id)) (now - startTime (slot st id)).
Proof.
  intros Hact. unfold getCurrentPrice, spec_price, checked_sub, checked_mul.
  rewrite Hact. simpl.
  destruct (now <? _) eqn:E1; simpl; [discriminate |].
  destruct (duration _ <=? _) eqn:E2; simpl.
  - intros [= <-]. destruct (_ <? duration _) eqn:E3; lia.
  - destruct (MAX_UINT256 <? _) eqn:E3; simpl; [discriminate |].
    destruct (initialPrice _ <=? _) eqn:E4; [| destruct (initialPrice _ <? _) eqn:E5];
      intros [= <-]; destruct (_ <? duration _) eqn:E6; lia.
Qed.

Lemma spec_price_antitone P D T t t' :
  0 <= D -> t <= t' -> spec_price P D T t' <= spec_price P D T t.
Proof.
  intros HD Hle. unfold spec_price.
  destruct (t <? T) eqn:E1, (t' <? T) eqn:E2; nia.
Qed.

(** C2. For an active auction with initial price P, decay rate D, duration
    T and start time S, at time S + t with t >= 0 and no overflow in t * D,
    [getCurrentPrice] returns max(0, P - t*D) while t < T and 0 from T on;
    a price returned at a later time is never higher. *)
Theorem getCurrentPrice_linear_decay now id st t :
  active (slot st id) = true ->
  0 <= decayRate (slot st id) ->
  0 <= t ->
  (t < duration (slot st id) -> t * decayRate (slot st id) <= MAX_UINT256) ->
  now = startTime (slot st id) + t ->
  getCurrentPrice now id st
    = inr (spec_price (initialPrice (slot st id)) (decayRate (slot st id))
             (duration (slot st id)) t) /\
  (forall t' p', t <= t' ->
     getCurrentPrice (startTime (slot st id) + t') id st = inr p' ->
     p' <= spec_price (initialPrice (slot st id)) (decayRate (slot st id))
             (duration (slot st id)) t).
Proof.
  intros Hact HD Ht Hmul ->. split.
  - unfold getCurrentPrice, spec_price, checked_sub, checked_mul.
    rewrite Hact. simpl.
    replace (startTime (slot st id) + t - startTime (slot st id)) with t by lia.
    destruct (_ <? startTime _) eqn:E1; [lia |]. simpl.
    destruct (duration _ <=? t) eqn:E2; simpl.
    + destruct (t <? duration _) eqn:E3; [lia | reflexivity].
    + destruct (t <? duration _) eqn:E3; [| lia].
      destruct (MAX_UINT256 <? _) eqn:E4; [lia |]. simpl.
      destruct (initialPrice _ <=? _) eqn:E5.
      * unfold ret. f_equal. lia.
      * destruct (initialPrice _ <? _) eqn:E6; [lia |]. unfold ret. f_equal. lia.
  - intros t' p' Hle Hp'.
    apply getCurrentPrice_returns in Hp' as [_ ->]; [| exact Hact].
    replace (startTime (slot st id) + t' - startTime (slot st id)) with t' by lia.
    by apply spec_price_antitone.
Qed.

Lemma getCurrentPrice_linear_decay_witness :
  getCurrentPrice 150 0 s_created = inr 550 /\
  (forall t' p', 50 <= t' -> getCurrentPrice (100 + t') 0 s_created = inr p' -> p' <= 550).
Proof.
  apply (getCurrentPrice_linear_decay 150 0 s_created 50); vm_compute; congruence.
Defined.

(** C10. For an active auction, [getCurrentPrice] at a time before the
    auction's start time fails with the arithmetic panic of the checked
    subtraction: no price comes out of a wrapped elapsed time. *)
Theorem getCurrentPrice_before_start now id st :
  active (slot st id) = true ->
  now < startTime (slot st id) ->
  getCurrentPrice now id st = inl (Panic ARITHMETIC) /\
  forall env fuel depth,
    run env now fuel depth (GetCurrentPrice id) st = inl (Panic ARITHMETIC).
Proof.
  intros Hact Hlt.
  assert (getCurrentPrice now id st = inl (Panic ARITHMETIC)) as H.
  { unfold getCurrentPrice, checked_sub. rewrite Hact. simpl.
    destruct (now <? _) eqn:E; [reflexivity | lia]. }
  split; [exact H |]. intros env fuel depth. rewrite run_unfold. simpl. by rewrite H.
Qed.

Lemma getCurrentPrice_before_start_witness :
  getCurrentPrice 50 0 s_created = inl (Panic ARITHMETIC) /\
  forall env fuel depth,
    run env 50 fuel depth (GetCurrentPrice 0) s_created = inl (Panic ARITHMETIC).
Proof.
  apply (getCurrentPrice_before_start 50 0 s_created); vm_compute; reflexivity.
Defined.

(** C8. For an active auction stored by [createAuction], whenever the
    product elapsed * decayRate exceeds what 256 bits hold, [getCurrentPrice]
    returns 0: such an elapsed time lies beyond the duration, so the price is
    already zero and the product is never formed.  Every price the function
    returns is the exact value of the formula, never a wrapped one. *)
Theorem getCurrentPrice_overflow_saturates now id st :
  wf st ->
  active (slot st id) = true ->
  startTime (slot st id) <= now ->
  MAX_UINT256 < (now - startTime (slot st id)) * decayRate (slot st id) ->
  getCurrentPrice now id st = inr 0 /\
  forall now' p, getCurrentPrice now' id st = inr p ->
    p = spec_price (initialPrice (slot st id)) (decayRate (slot st id))
          (duration (slot st id)) (now' - startTime (slot st id)) /\
    0 <= p <= initialPrice (slot st id).
Proof.
  intros Hwf Hact Hnow Hover.
  destruct (wf_sound _ _ Hwf Hact) as (HT & HD & _ & Hmax & Hlt). split.
  - unfold getCurrentPrice, checked_sub. rewrite Hact. simpl.
    destruct (now <? _) eqn:E1; [lia |]. simpl.
    destruct (duration _ <=? _) eqn:E2; [reflexivity | nia].
  - intros now' p Hp. apply getCurrentPrice_returns in Hp as [Hel ->]; [| exact Hact].
    split; [reflexivity |]. unfold spec_price.
    destruct (_ <? duration _) eqn:E; nia.
Qed.

Lemma getCurrentPrice_overflow_saturates_witness :
  getCurrentPrice (100 + 2 ^ 255) 0 s_created = inr 0 /\
  forall now' p, getCurrentPrice now' 0 s_created = inr p ->
    p = spec_price (initialPrice (slot s_created 0)) (decayRate (slot s_created 0))
          (duration (slot s_created 0)) (now' - startTime (slot s_created 0)) /\
    0 <= p <= initialPrice (slot s_created 0).
Proof.
  apply (getCurrentPrice_overflow_saturates (100 + 2 ^ 255) 0 s_created);
    [apply s_created_wf | vm_compute; congruence ..].
Defined.

(** Records stored by [createAuction] never make the multiplication
    overflow: from the start time on, [getCurrentPrice] returns. *)
Lemma getCurrentPrice_total now id st :
  wf st -> active (slot st id) = true -> startTime (slot st id) <= now ->
  exists p, getCurrentPrice now id st = inr p.
Proof.
  intros Hwf Hact Hnow. destruct (wf_sound _ _ Hwf Hact) as (HT & HD & _ & Hmax & Hlt).
  unfold getCurrentPrice, checked_sub, checked_mul. rewrite Hact. simpl.
  destruct (now <? _) eqn:E1; [lia |]. simpl.
  destruct (duration _ <=? _) eqn:E2; simpl; [eauto |].
  destruct (MAX_UINT256 <? _) eqn:E3; [nia |]. simpl.
  destruct (initialPrice _ <=? _) eqn:E4; [eauto |].
  destruct (initialPrice _ <? _) eqn:E5; [lia | eauto].
Qed.

(** ** Failures *)

(** C6, as the specification states it, fails: an id that was never
    inserted is answered with the failure of inactive auctions, the same
    one a sold auction gets. *)
Lemma never_inserted_is_NotActive :
  auctions init !! 0 = None /\
  ~ (exists e, getCurrentPrice 150 0 init = inl e /\ e <> NotActive) /\
  ~ (exists e, run honest 150 3 0 (Buy 8 600 0) init = inl e /\ e <> NotActive) /\
  run honest 150 3 0 (Buy 8 600 0) s_sold = run honest 150 3 0 (Buy 8 600 0) init.
Proof.
  split; [reflexivity |]. split; [| split].
  - intros (e & He & Hne). vm_compute in He. injection He as <-. by apply Hne.
  - intros (e & He & Hne). vm_compute in He. injection He as <-. by apply Hne.
  - vm_compute. reflexivity.
Qed.

(** C6, amended. For every id under which no record was ever inserted,
    [getCurrentPrice] and [buy] fail with "Auction not active", the failure
    that existing inactive auctions get as well; the contract has no
    separate not-found failure. *)
Theorem never_inserted_fails_not_active env now fuel depth sender value id st :
  auctions st !! id = None ->
  getCurrentPrice now id st = inl NotActive /\
  run env now fuel depth (GetCurrentPrice id) st = inl NotActive /\
  run env now fuel depth (Buy sender value id) st = inl NotActive.
Proof.
  intros Hnone.
  assert (active (slot st id) = false) as Hina by (unfold slot; by rewrite Hnone).
  rewrite !run_unfold. unfold dispatch, buy, getCurrentPrice. by rewrite Hina.
Qed.

Lemma never_inserted_fails_not_active_witness :
  getCurrentPrice 150 5 s_created = inl NotActive /\
  run honest 150 3 0 (GetCurrentPrice 5) s_created = inl NotActive /\
  run honest 150 3 0 (Buy 8 600 5) s_created = inl NotActive.
Proof.
  apply (never_inserted_fails_not_active honest 150 3 0 8 600 5 s_created).
  vm_compute. reflexivity.
Defined.

(** C7, as the specification states it, fails: on a sold auction a caller
    who is not the seller is told "Not seller", not "Auction not active". *)
Lemma cancel_sold_by_stranger :
  active (slot s_sold 0) = false /\
  8 <> seller (slot s_sold 0) /\
  run honest 200 3 0 (CancelAuction 8 0) s_sold = inl NotSeller /\
  NotSeller <> NotActive.
Proof. vm_compute. repeat split; congruence. Qed.

(** C7, amended. [cancelAuction] checks the caller before the status.
    Whenever the caller differs from the stored seller it fails with "Not
    seller", whatever the status of the auction; when the caller is the
    stored seller and the auction is not active it fails with "Auction not
    active".  When the caller is the stored seller and the auction is
    active, both checks pass: the call then fails only if the token's
    [transfer] reverts, and with the revert data of the token, whatever
    that data reads. *)
Theorem cancelAuction_checks_seller_first env now fuel depth sender id st :
  (sender <> seller (slot st id) ->
   run env now fuel depth (CancelAuction sender id) st = inl NotSeller) /\
  (sender = seller (slot st id) -> active (slot st id) = false ->
   run env now fuel depth (CancelAuction sender id) st = inl NotActive) /\
  (sender = seller (slot st id) -> active (slot st id) = true ->
   forall e, run env now fuel depth (CancelAuction sender id) st = inl e ->
     call (extcall_of env now fuel depth) depth
       (TokenTransfer (token (slot st id)) (seller (slot st id)) (amount (slot st id)))
       (store id (deactivate (slot st id)) st) = inl e).
Proof.
  rewrite run_unfold. unfold dispatch, cancelAuction. split; [| split].
  - intros Hs. apply Z.eqb_neq in Hs. by rewrite Hs.
  - intros Hs Hina. apply Z.eqb_eq in Hs. by rewrite Hs, Hina.
  - intros Hs Hact e. apply Z.eqb_eq in Hs. rewrite Hs, Hact, slot_store_eq. simpl.
    destruct (call _ _ _ _) as [e' | [s b]]; simpl; [congruence | discriminate].
Qed.

(** A token that reverts its [transfer] with the text "Not seller" makes
    the seller's own cancellation of an active auction fail with that text:
    outside the two cases above the failure says nothing about the caller. *)
Example cancelAuction_forwards_revert_data :
  7 = seller (slot s_created 0) /\ active (slot s_created 0) = true /\
  run (mimicking "Not seller") 150 3 0 (CancelAuction 7 0) s_created = inl NotSeller.
Proof. vm_compute. auto. Qed.

(** C5, as the specification states it, fails: with all four parameters
    positive and the initial price below duration * decayRate, the product
    can exceed 256 bits, and then the failure is the arithmetic panic. *)
Lemma createAuction_guard_overflow :
  0 < 1 /\ 0 < 2 ^ 128 /\ 1 <= 2 ^ 128 * 2 ^ 128 /\
  run honest 100 3 0 (CreateAuction 7 9 1 (2 ^ 128) (2 ^ 128) 1) init
    = inl (Panic ARITHMETIC) /\
  Panic ARITHMETIC <> PriceWouldReachZero.
Proof. vm_compute. repeat split; congruence. Qed.

(** C5, amended. [createAuction] checks, in this order, that initialPrice,
    duration, decayRate and amount are positive and then that initialPrice
    exceeds duration * decayRate, and fails with the message of the first
    check that does not hold.  With all four positive and initialPrice <=
    duration * decayRate it fails and stores nothing: with "Price would
    reach zero" when the product fits in 256 bits, with the arithmetic
    panic of the checked multiplication when it does not. *)
Theorem createAuction_validation_order extcall now depth sender tok P T D amt st :
  (P <= 0 ->
   createAuction extcall now depth sender tok P T D amt st
     = inl (Revert "Invalid initial price")) /\
  (0 < P -> T <= 0 ->
   createAuction extcall now depth sender tok P T D amt st
     = inl (Revert "Invalid duration")) /\
  (0 < P -> 0 < T -> D <= 0 ->
   createAuction extcall now depth sender tok P T D amt st
     = inl (Revert "Invalid decay rate")) /\
  (0 < P -> 0 < T -> 0 < D -> amt <= 0 ->
   createAuction extcall now depth sender tok P T D amt st
     = inl (Revert "Invalid amount")) /\
  (0 < P -> 0 < T -> 0 < D -> 0 < amt -> P <= T * D ->
   createAuction extcall now depth sender tok P T D amt st
     = inl (if T * D <=? MAX_UINT256 then PriceWouldReachZero else Panic ARITHMETIC)).
Proof.
  unfold createAuction, checked_mul.
  repeat split; intros;
    repeat match goal with
    | |- context [if ?a <=? ?b then _ else _] =>
        let E := fresh in destruct (a <=? b) eqn:E; simpl; try lia; try reflexivity
    | |- context [if ?a <? ?b then _ else _] =>
        let E := fresh in destruct (a <? b) eqn:E; simpl; try lia; try reflexivity
    end.
Qed.

Lemma createAuction_validation_order_witness :
  createAuction (extcall_of honest 100 3 0) 100 0 7 9 1000 100 10 10 init
    = inl PriceWouldReachZero.
Proof.
  apply (createAuction_validation_order (extcall_of honest 100 3 0) 100 0 7 9
           1000 100 10 10 init); lia.
Defined.

(** ** The escrow pull-in *)

(** A ledger that refuses by reverting does stop the creation. *)
Lemma createAuction_ledger_reverts extcall now depth sender tok P T D amt st e :
  extcall (TokenTransferFrom tok sender amt) (record_call depth (TokenTransferFrom tok sender amt) st)
    = inl e ->
  exists e', createAuction extcall now depth sender tok P T D amt st = inl e'.
Proof.
  intros Hc. unfold createAuction, call.
  repeat match goal with
  | |- context [if ?b then _ else _] => destruct b; [unfold revert; eauto |]
  end.
  destruct (checked_mul T D); simpl; [eauto |].
  destruct (P <=? z); [unfold revert; eauto |]. rewrite Hc. simpl. eauto.
Qed.

Example createAuction_reverting_ledger :
  run reverting 100 3 0 (CreateAuction 7 9 1000 100 9 10) init = inl CalleeReverted.
Proof. reflexivity. Qed.

(** A ledger that refuses by returning [false] does not: the returned
    boolean is dropped and the creation goes on. *)
Lemma createAuction_ledger_returns_false extcall now depth sender tok P T D amt st s :
  0 < P -> 0 < T -> 0 < D -> 0 < amt -> T * D <= MAX_UINT256 -> T * D < P ->
  auctionCount s < MAX_UINT256 ->
  extcall (TokenTransferFrom tok sender amt) (record_call depth (TokenTransferFrom tok sender amt) st)
    = inr (s, false) ->
  exists st', createAuction extcall now depth sender tok P T D amt st
                = inr (st', auctionCount s) /\
    active (slot st' (auctionCount s)) = true /\
    auctionCount st' = auctionCount s + 1.
Proof.
  intros HP HT HD Hamt Hmax Hlt Hcount Hc. unfold createAuction, call, checked_mul, checked_inc.
  destruct (P <=? 0) eqn:E1; [lia |]. destruct (T <=? 0) eqn:E2; [lia |].
  destruct (D <=? 0) eqn:E3; [lia |]. destruct (amt <=? 0) eqn:E4; [lia |].
  destruct (MAX_UINT256 <? T * D) eqn:E5; [lia |]. simpl.
  destruct (P <=? T * D) eqn:E6; [lia |]. rewrite Hc. simpl.
  destruct (MAX_UINT256 <? auctionCount s + 1) eqn:E7; [lia |]. simpl.
  eexists. split; [reflexivity |]. split; [| reflexivity].
  unfold emit, slot; simpl. by rewrite lookup_insert_eq.
Qed.

(** C3. The claim holds for a ledger that reverts but not for one that
    reports the refusal in its return value: with a token whose
    [transferFrom] returns [false], [createAuction] succeeds, stores an
    active record, advances the counter and emits [AuctionCreated]. *)
Theorem createAuction_ignores_refusal :
  refusing (TokenTransferFrom 9 7 10) (record_call 0 (TokenTransferFrom 9 7 10) init)
    = Return false /\
  exists st', run refusing 100 3 0 (CreateAuction 7 9 1000 100 9 10) init = inr (st', 0) /\
    slot st' 0 = {| seller := 7; token := 9; initialPrice := 1000; startTime := 100;
                    duration := 100; decayRate := 9; amount := 10; active := true |} /\
    auctionCount st' = 1 /\
    events st' = [AuctionCreated 0 7 9 1000 100 9 10].
Proof.
  split; [reflexivity |]. eexists. split; [vm_compute; reflexivity |].
  vm_compute. auto.
Qed.

(** ** The terminal record *)


(** ** Settlement, step by step *)

Lemma own_app d t1 t2 : own d (t1 ++ t2) = own d t1 ++ own d t2.
Proof. unfold own. by rewrite filter_app, map_app. Qed.

Lemma own_cons d o t : own d ((d, o) :: t) = o :: own d t.
Proof. unfold own. rewrite filter_cons. simpl. by case_decide. Qed.

Lemma own_deeper d t : Forall (fun e => (S d <= fst e)%nat) t -> own d t = [].
Proof.
  induction 1 as [| [d' o] t Hd _ IH]; [reflexivity |].
  unfold own in *. rewrite filter_cons. simpl in *. case_decide; [lia | exact IH].
Qed.

Lemma flipped_settled id st :
  wf st -> active (slot st id) = true ->
  settled id (store id (deactivate (slot st id)) st).
Proof.
  intros Hwf Hact. split; simpl.
  - by apply wf_active.
  - by rewrite slot_store_eq.
Qed.

Lemma settled_extends d id s s' :
  settled id s -> extends d s s' ->
  settled id s' /\ slot s' id = slot s id /\
  exists evs, events s' = events s ++ evs /\ count_terminal id evs = 0%nat.
Proof.
  intros Hs Hext. split; [eauto using extends_settled |]. split.
  - destruct Hs as [Hlt Hina]. destruct (ext_slot _ _ _ Hext id Hlt) as [-> | ->]; [done |].
    destruct (slot s id); simpl in *. by subst.
  - destruct (ext_events _ _ _ Hext) as (evs & E & Z0). eauto.
Qed.

Section Settling.
Variable extcall : Outcall -> State -> Failure + (State * bool).
Variable now : Z.
Variable depth : nat.
Hypothesis extcall_extends :
  forall o s s' b, extcall o s = inr (s', b) -> extends (S depth) s s'.

Lemma call_trace o s s' b :
  call extcall depth o s = inr (s', b) ->
  exists t, trace s' = trace s ++ (depth, o) :: t /\ own depth t = [].
Proof.
  unfold call. intros H. apply extcall_extends in H.
  destruct (ext_trace _ _ _ H) as (t & T & F). simpl in T.
  exists t. split; [by rewrite T, <- app_assoc | by apply own_deeper].
Qed.

(** What a successful [buy] leaves behind. *)
Lemma buy_effects sender value id st st' :
  wf st ->
  buy extcall now depth sender value id st = inr st' ->
  exists price evs new,
    active (slot st id) = true /\
    getCurrentPrice now id st = inr price /\
    0 < price <= value /\
    settled id st' /\
    slot st' id = deactivate (slot st id) /\
    events st' = events st ++ evs ++ [AuctionFinalized id sender price] /\
    count_terminal id evs = 0%nat /\
    trace st' = trace st ++ new /\
    own depth new =
      TokenTransfer (token (slot st id)) sender (amount (slot st id))
      :: NativeTransfer (seller (slot st id)) price
      :: (if price <? value then [NativeTransfer sender (value - price)] else []).
Proof.
  intros Hwf H.
  apply buy_inv in H as (price & st2 & b2 & st3 & b3 & st4 & Hact & Hprice & Hrange
                          & Hc2 & Hc3 & Hc4 & ->).
  pose proof (flipped_settled id st Hwf Hact) as Hs1.
  set (st1 := store id (deactivate (slot st id)) st) in *.
  assert (slot st1 id = deactivate (slot st id)) as Hslot1 by apply slot_store_eq.
  rewrite Hslot1 in Hc2. simpl in Hc2.
  assert (extends depth st1 st2) as Xst2 by (eapply call_extends; eauto).
  destruct (settled_extends depth id st1 st2 Hs1 Xst2) as (Hs2 & Hslot2 & evs2 & E2 & Z2).
  destruct (call_trace _ _ _ _ Hc2) as (t2 & T2 & O2).
  rewrite Hslot2, Hslot1 in Hc3. simpl in Hc3.
  assert (extends depth st2 st3) as Xst3 by (eapply call_extends; eauto).
  destruct (settled_extends depth id st2 st3 Hs2 Xst3) as (Hs3 & Hslot3 & evs3 & E3 & Z3).
  destruct (call_trace _ _ _ _ Hc3) as (t3 & T3 & O3).
  assert (settled id st4 /\ slot st4 id = slot st3 id /\
          (exists evs4, events st4 = events st3 ++ evs4 /\ count_terminal id evs4 = 0%nat) /\
          exists t4, trace st4 = trace st3 ++ t4 /\
            own depth t4 = if price <? value
                           then [NativeTransfer sender (value - price)] else [])
    as (Hs4 & Hslot4 & (evs4 & E4 & Z4) & t4 & T4 & O4).
  { destruct (price <? value).
    - destruct Hc4 as [b4 Hc4].
      assert (extends depth st3 st4) as X4 by (eapply call_extends; eauto).
      destruct (settled_extends depth id st3 st4 Hs3 X4) as (Hs4 & Hslot4 & Hev).
      destruct (call_trace _ _ _ _ Hc4) as (t4 & T4 & O4).
      split; [exact Hs4 |]. split; [exact Hslot4 |]. split; [exact Hev |].
      exists ((depth, NativeTransfer sender (value - price)) :: t4).
      split; [done |]. by rewrite own_cons, O4.
    - subst st4. split; [exact Hs3 |]. split; [reflexivity |]. split.
      + exists []. by rewrite app_nil_r.
      + exists []. by rewrite app_nil_r. }
  exists price, (evs2 ++ evs3 ++ evs4),
    (((depth, TokenTransfer (token (slot st id)) sender (amount (slot st id))) :: t2)
     ++ ((depth, NativeTransfer (seller (slot st id)) price) :: t3) ++ t4).
  repeat split; auto; try lia; simpl.
  - apply Hs4.
  - apply Hs4.
  - unfold slot in *. simpl. by rewrite Hslot4, Hslot3, Hslot2.
  - rewrite E4, E3, E2. simpl. by rewrite <- !app_assoc.
  - by rewrite !count_terminal_app, Z2, Z3, Z4.
  - rewrite T4, T3, T2. simpl. rewrite <- !app_assoc. simpl. by rewrite <- ?app_assoc.
  - rewrite own_cons, own_app, O2, own_cons, own_app, O3, O4. reflexivity.
Qed.

(** What a successful [cancelAuction] leaves behind. *)
Lemma cancelAuction_effects sender id st st' :
  wf st ->
  cancelAuction extcall depth sender id st = inr st' ->
  exists evs new,
    active (slot st id) = true /\
    sender = seller (slot st id) /\
    settled id st' /\
    slot st' id = deactivate (slot st id) /\
    events st' = events st ++ evs ++ [AuctionCancelled id] /\
    count_terminal id evs = 0%nat /\
    trace st' = trace st ++ new /\
    own depth new =
      [TokenTransfer (token (slot st id)) (seller (slot st id)) (amount (slot st id))].
Proof.
  intros Hwf H.
  apply cancelAuction_inv in H as (st2 & b2 & Hsender & Hact & Hc2 & ->).
  pose proof (flipped_settled id st Hwf Hact) as Hs1.
  set (st1 := store id (deactivate (slot st id)) st) in *.
  assert (slot st1 id = deactivate (slot st id)) as Hslot1 by apply slot_store_eq.
  rewrite Hslot1 in Hc2. simpl in Hc2.
  assert (extends depth st1 st2) as Xst2 by (eapply call_extends; eauto).
  destruct (settled_extends depth id st1 st2 Hs1 Xst2) as (Hs2 & Hslot2 & evs2 & E2 & Z2).
  destruct (call_trace _ _ _ _ Hc2) as (t2 & T2 & O2).
  exists evs2,
    ((depth, TokenTransfer (token (slot st id)) (seller (slot st id)) (amount (slot st id)))
     :: t2).
  repeat split; auto; simpl.
  - apply Hs2.
  - apply Hs2.
  - unfold slot in *. simpl. by rewrite Hslot2.
  - rewrite E2. simpl. by rewrite <- !app_assoc.
  - by rewrite own_cons, O2.
Qed.
End Settling.

Lemma run_buy_effects env now fuel depth sender value id st st' v :
  wf st ->
  run env now fuel depth (Buy sender value id) st = inr (st', v) ->
  exists price evs new,
    active (slot st id) = true /\
    getCurrentPrice now id st = inr price /\
    0 < price <= value /\
    settled id st' /\
    slot st' id = deactivate (slot st id) /\
    events st' = events st ++ evs ++ [AuctionFinalized id sender price] /\
    count_terminal id evs = 0%nat /\
    trace st' = trace st ++ new /\
    own depth new =
      TokenTransfer (token (slot st id)) sender (amount (slot st id))
      :: NativeTransfer (seller (slot st id)) price
      :: (if price <? value then [NativeTransfer sender (value - price)] else []).
Proof.
  intros Hwf. rewrite run_unfold. simpl. intros H.
  apply bind_inr in H as (s & H & [= <- _]).
  eapply buy_effects; eauto using extcall_of_extends.
Qed.

Lemma run_cancelAuction_effects env now fuel depth sender id st st' v :
  wf st ->
  run env now fuel depth (CancelAuction sender id) st = inr (st', v) ->
  exists evs new,
    active (slot st id) = true /\
    sender = seller (slot st id) /\
    settled id st' /\
    slot st' id = deactivate (slot st id) /\
    events st' = events st ++ evs ++ [AuctionCancelled id] /\
    count_terminal id evs = 0%nat /\
    trace st' = trace st ++ new /\
    own depth new =
      [TokenTransfer (token (slot st id)) (seller (slot st id)) (amount (slot st id))].
Proof.
  intros Hwf. rewrite run_unfold. simpl. intros H.
  apply bind_inr in H as (s & H & [= <- _]).
  eapply cancelAuction_effects; eauto using extcall_of_extends.
Qed.



(** ** The payments of a purchase *)

(** X18. The outbound calls a successful [buy] issues in its own frame
    are, in this order, [transfer] of the whole escrowed amount of the token
    to the payer, the native transfer of exactly the current price to the
    seller and, when the payment exceeds the price, the native transfer of
    exactly the difference back to the payer; with a payment equal to the
    price no refund call is issued.  What the token answers is not looked
    at. *)
Theorem buy_pays_price_and_refunds_excess env now fuel depth payer value id st st' v :
  wf st ->
  run env now fuel depth (Buy payer value id) st = inr (st', v) ->
  exists price new,
    getCurrentPrice now id st = inr price /\
    trace st' = trace st ++ new /\
    (price < value ->
     own depth new =
       [TokenTransfer (token (slot st id)) payer (amount (slot st id));
        NativeTransfer (seller (slot st id)) price;
        NativeTransfer payer (value - price)]) /\
    (price = value ->
     own depth new =
       [TokenTransfer (token (slot st id)) payer (amount (slot st id));
        NativeTransfer (seller (slot st id)) price]).
Proof.
  intros Hwf Hbuy.
  apply run_buy_effects in Hbuy
    as (price & evs & new & _ & Hprice & _ & _ & _ & _ & _ & Htrace & Hown); [| exact Hwf].
  exists price, new. repeat split; auto; intros Hcmp; rewrite Hown.
  - destruct (price <? value) eqn:E; [reflexivity | lia].
  - destruct (price <? value) eqn:E; [lia | reflexivity].
Qed.

Lemma buy_pays_price_and_refunds_excess_witness :
  exists price new,
    getCurrentPrice 150 0 s_created = inr price /\
    trace s_sold = trace s_created ++ new /\
    (price < 600 ->
     own 0 new = [TokenTransfer (token (slot s_created 0)) 8 (amount (slot s_created 0));
                  NativeTransfer (seller (slot s_created 0)) price;
                  NativeTransfer 8 (600 - price)]) /\
    (price = 600 ->
     own 0 new = [TokenTransfer (token (slot s_created 0)) 8 (amount (slot s_created 0));
                  NativeTransfer (seller (slot s_created 0)) price]).
Proof.
  apply (buy_pays_price_and_refunds_excess honest 150 3 0%nat 8 600 0 s_created s_sold 0).
  - apply s_created_wf.
  - vm_compute. reflexivity.
Defined.

(** C4. The payments in native currency are as claimed, but the delivery
    of the escrowed tokens is not assured: the boolean [transfer] returns is
    dropped.  With a token whose [transfer] answers [false], that is,
    reports that nothing was moved, [buy] still succeeds: the auction is
    closed, the seller is sent the price, the payer the refund, and
    [AuctionFinalized] is emitted. *)
Theorem buy_ignores_refusal :
  refusing (TokenTransfer 9 8 10)
    (record_call 0 (TokenTransfer 9 8 10) (store 0 (deactivate (slot s_created 0)) s_created))
    = Return false /\
  exists st', run refusing 150 3 0 (Buy 8 600 0) s_created = inr (st', 0) /\
    active (slot st' 0) = false /\
    events st' = events s_created ++ [AuctionFinalized 0 8 550] /\
    trace st' = trace s_created ++
      [(0%nat, TokenTransfer 9 8 10); (0%nat, NativeTransfer 7 550);
       (0%nat, NativeTransfer 8 50)].
Proof.
  split; [reflexivity |]. eexists. split; [vm_compute; reflexivity |].
  vm_compute. auto.
Qed.

(** ** Settlement happens once *)

Lemma inactive_rejects env now fuel depth c id st :
  active (slot st id) = false -> settles c id ->
  run env now fuel depth c st = inl (rejection c st).
Proof.
  intros Hina Hc. rewrite run_unfold.
  destruct c as [| | sender value i | sender i]; simpl in *; try contradiction; subst i.
  - unfold buy. by rewrite Hina.
  - unfold cancelAuction. rewrite Hina. by destruct (sender =? _).
Qed.

(** Two ways of answering outbound calls that agree wherever the auction
    [id] is settled make the contract behave the same from the moment the
    auction is settled. *)
Section Agreement.
Variable id : Z.
Variables extcall extcall' : Outcall -> State -> Failure + (State * bool).
Variable now : Z.
Variable depth : nat.
Hypothesis extcall_extends :
  forall o s s' b, extcall o s = inr (s', b) -> extends (S depth) s s'.
Hypothesis agree : forall o s, settled id s -> extcall o s = extcall' o s.

Lemma bind_call_agree {B} o s (k k' : State * bool -> Failure + B) :
  settled id s ->
  (forall s' b, settled id s' -> k (s', b) = k' (s', b)) ->
  bind (call extcall depth o s) k = bind (call extcall' depth o s) k'.
Proof.
  intros Hs Hk. unfold call at 2. rewrite <- agree by exact Hs.
  fold (call extcall depth o s).
  destruct (call extcall depth o s) as [e | [s' b]] eqn:Hc; simpl; [reflexivity |].
  apply Hk. eapply extends_settled; [| exact Hs].
  eapply call_extends; eauto.
Qed.

Lemma createAuction_agree sender tok P T D amt st :
  settled id st ->
  createAuction extcall now depth sender tok P T D amt st
  = createAuction extcall' now depth sender tok P T D amt st.
Proof.
  intros Hs. unfold createAuction.
  repeat match goal with
  | |- (if ?b then _ else _) = _ => destruct b; [reflexivity |]
  end.
  destruct (checked_mul T D) as [e | limit]; simpl; [reflexivity |].
  destruct (P <=? limit); [reflexivity |].
  apply bind_call_agree; [exact Hs | reflexivity].
Qed.

Lemma settled_after_flip i st :
  id < auctionCount st -> active (slot st id) = false \/ i = id ->
  settled id (store i (deactivate (slot st i)) st).
Proof.
  intros Hlt Hor. split; [exact Hlt |].
  destruct (decide (i = id)) as [-> | Hne].
  - by rewrite slot_store_eq.
  - rewrite slot_store_ne by exact Hne. destruct Hor; [done | contradiction].
Qed.

Lemma buy_agree sender value i st :
  id < auctionCount st -> active (slot st id) = false \/ i = id ->
  buy extcall now depth sender value i st = buy extcall' now depth sender value i st.
Proof.
  intros Hlt Hor. unfold buy.
  destruct (negb (active (slot st i))); [reflexivity |].
  destruct (getCurrentPrice now i st) as [e | price]; simpl; [reflexivity |].
  destruct (price <=? 0); [reflexivity |].
  destruct (value <? price); [reflexivity |].
  apply bind_call_agree; [by apply settled_after_flip |]. intros st2 _ Hs2.
  apply bind_call_agree; [exact Hs2 |]. intros st3 _ Hs3.
  destruct (price <? value); [| reflexivity].
  destruct (checked_sub value price) as [e | refund]; simpl; [reflexivity |].
  f_equal. apply bind_call_agree; [exact Hs3 | reflexivity].
Qed.

Lemma cancelAuction_agree sender i st :
  id < auctionCount st -> active (slot st id) = false \/ i = id ->
  cancelAuction extcall depth sender i st = cancelAuction extcall' depth sender i st.
Proof.
  intros Hlt Hor. unfold cancelAuction.
  destruct (negb (sender =? _)); [reflexivity |].
  destruct (negb (active (slot st i))); [reflexivity |].
  apply bind_call_agree; [by apply settled_after_flip | reflexivity].
Qed.

Lemma dispatch_agree c st :
  id < auctionCount st -> active (slot st id) = false \/ settles c id ->
  dispatch extcall now depth c st = dispatch extcall' now depth c st.
Proof.
  intros Hlt Hor. destruct c as [sender tok P T D amt | i | sender value i | sender i]; simpl.
  - apply createAuction_agree. split; [exact Hlt |]. by destruct Hor.
  - reflexivity.
  - by rewrite buy_agree.
  - by rewrite cancelAuction_agree.
Qed.
End Agreement.

Lemma play_agree id d n n' s st :
  (forall c s1 s2 v, n c s1 = inr (s2, v) -> extends d s1 s2) ->
  (forall c s1, settled id s1 -> n c s1 = n' c s1) ->
  settled id st -> play n s st = play n' s st.
Proof.
  intros Hext Hagree. revert st. induction s as [ok | data | c k IH]; simpl; intros st Hs;
    try reflexivity.
  rewrite <- (Hagree c st Hs). apply IH.
  destruct (n c st) as [e | [s2 v]] eqn:E; simpl; [exact Hs |].
  eauto using extends_settled.
Qed.

Lemma guard_settled id env o s : settled id s -> guard id env o s = env o s.
Proof. intros [_ Hina]. unfold guard. by rewrite Hina. Qed.

Lemma nested_extends env now fuel depth c s1 s2 v :
  nested env now fuel depth c s1 = inr (s2, v) -> extends (S depth) s1 s2.
Proof. destruct fuel; simpl; [discriminate | apply run_extends]. Qed.

Lemma run_guard id env now fuel : forall depth c st,
  id < auctionCount st -> active (slot st id) = false \/ settles c id ->
  run env now fuel depth c st = run (guard id env) now fuel depth c st.
Proof.
  assert (forall fuel',
    (forall depth c st, id < auctionCount st -> active (slot st id) = false \/ settles c id ->
       nested env now fuel' depth c st = nested (guard id env) now fuel' depth c st) ->
    forall depth c st, id < auctionCount st -> active (slot st id) = false \/ settles c id ->
      run env now fuel' depth c st = run (guard id env) now fuel' depth c st) as Hstep.
  { intros fuel' Hn depth c st Hlt Hor. rewrite !run_unfold.
    apply dispatch_agree with (id := id); [apply extcall_of_extends | | exact Hlt | exact Hor].
    intros o s Hs. unfold extcall_of. rewrite guard_settled by exact Hs.
    apply play_agree with (id := id) (d := S depth); [apply nested_extends | | exact Hs].
    intros c1 s1 [Hlt1 Hina1]. apply Hn; auto. }
  induction fuel as [| fuel IH]; apply Hstep.
  - reflexivity.
  - intros depth c st Hlt Hor. simpl. by apply IH.
Qed.

(** A token that reenters during the payout of a purchase finds the auction
    closed: the purchase goes through once, and both nested attempts fail. *)
Example reentrant_attempts_rejected :
  exists st', run reentering 150 3 0 (Buy 8 600 0) s_created = inr (st', 0) /\
    events st' = events s_created ++ [AuctionFinalized 0 8 550] /\
    own 0 (trace st') = own 0 (trace s_sold).
Proof. eexists. split; [vm_compute; reflexivity |]. split; vm_compute; reflexivity. Qed.

(** C1, as the specification states it, fails: after a successful [buy] a
    [cancelAuction] by someone other than the seller is rejected with "Not
    seller", not with "Auction not active". *)
Lemma cancel_after_buy_is_not_seller :
  run honest 150 3 0 (Buy 8 600 0) s_created = inr (s_sold, 0) /\
  run honest 160 3 0 (CancelAuction 8 0) s_sold = inl NotSeller /\
  NotSeller <> NotActive.
Proof.
  split; [vm_compute; reflexivity |]. split; [vm_compute; reflexivity | discriminate].
Qed.


(** * Further properties of the contract *)

(** ** Induction over executions *)

(** A reflexive and transitive relation that every entry point respects,
    given that the outbound calls of its frame do, holds between the two
    ends of every successful call. *)
Lemma play_rel (R : State -> State -> Prop) n s st st' b :
  (forall st0, R st0 st0) ->
  (forall a b0 c, R a b0 -> R b0 c -> R a c) ->
  (forall c s1 s2 v, n c s1 = inr (s2, v) -> R s1 s2) ->
  play n s st = inr (st', b) -> R st st'.
Proof.
  intros Hrefl Htrans Hn. revert st. induction s as [ok | data | c k IH]; simpl; intros st H.
  - injection H as <- _. apply Hrefl.
  - discriminate.
  - eapply Htrans; [| eapply IH; exact H].
    destruct (n c st) as [e | [s2 v]] eqn:E; simpl; [apply Hrefl | eauto].
Qed.

Lemma run_rel (R : State -> State -> Prop) :
  (forall st, R st st) ->
  (forall a b c, R a b -> R b c -> R a c) ->
  (forall env now fuel depth c st st' v,
     (forall o s s' b, extcall_of env now fuel depth o s = inr (s', b) -> R s s') ->
     dispatch (extcall_of env now fuel depth) now depth c st = inr (st', v) -> R st st') ->
  forall env now fuel depth c st st' v,
    run env now fuel depth c st = inr (st', v) -> R st st'.
Proof.
  intros Hrefl Htrans Hstep env now fuel.
  induction fuel as [| fuel IH]; intros depth c st st' v; rewrite run_unfold;
    apply Hstep; intros o s s' b; unfold extcall_of; apply play_rel; auto; simpl.
  - discriminate.
  - intros c1 s1 s2 v1. apply IH.
Qed.

(** The steps of a successful [createAuction], in order. *)
Lemma createAuction_inv extcall now depth sender tok P T D amt st st' v :
  createAuction extcall now depth sender tok P T D amt st = inr (st', v) ->
  exists st1 b,
    0 < P /\ 0 < T /\ 0 < D /\ 0 < amt /\ T * D <= MAX_UINT256 /\ T * D < P /\
    call extcall depth (TokenTransferFrom tok sender amt) st = inr (st1, b) /\
    auctionCount st1 < MAX_UINT256 /\
    v = auctionCount st1 /\
    st' = emit (AuctionCreated (auctionCount st1) sender tok P T D amt)
            (store (auctionCount st1)
               {| seller := sender; token := tok; initialPrice := P; startTime := now;
                  duration := T; decayRate := D; amount := amt; active := true |}
               (set_count (auctionCount st1 + 1) st1)).
Proof.
  unfold createAuction, checked_mul, checked_inc. intros H.
  destruct (P <=? 0) eqn:E1; [discriminate |].
  destruct (T <=? 0) eqn:E2; [discriminate |].
  destruct (D <=? 0) eqn:E3; [discriminate |].
  destruct (amt <=? 0) eqn:E4; [discriminate |].
  destruct (MAX_UINT256 <? T * D) eqn:E5; [discriminate |]. simpl in H.
  destruct (P <=? T * D) eqn:E6; [discriminate |].
  apply bind_inr in H as ([st1 b] & Hc & H).
  destruct (MAX_UINT256 <? auctionCount st1 + 1) eqn:E7; [discriminate |]. simpl in H.
  injection H as <- <-. exists st1, b. repeat split; auto; lia.
Qed.

(** ** A world without callbacks *)

Lemma quiet_call env now fuel depth o s :
  quiet env ->
  exists ok, call (extcall_of env now fuel depth) depth o s = inr (record_call depth o s, ok).
Proof.
  intros Hq. unfold call, extcall_of.
  destruct (Hq o (record_call depth o s)) as [ok ->]. simpl. eauto.
Qed.

Lemma quiet_call_inv env now fuel depth o s s' b :
  quiet env ->
  call (extcall_of env now fuel depth) depth o s = inr (s', b) -> s' = record_call depth o s.
Proof.
  intros Hq H. destruct (quiet_call env now fuel depth o s Hq) as [ok Hok].
  rewrite Hok in H. by injection H as <- _.
Qed.

Lemma reachable_s_created : reachable s_created.
Proof.
  apply (reachable_step honest 100 3 (CreateAuction 7 9 1000 100 9 10) init s_created 0);
    [constructor | vm_compute; reflexivity].
Qed.

Lemma reachable_s_sold : reachable s_sold.
Proof.
  apply (reachable_step honest 150 3 (Buy 8 600 0) s_created s_sold 0);
    [apply reachable_s_created | vm_compute; reflexivity].
Qed.

Lemma quiet_honest : quiet honest.
Proof. intros o s. by exists true. Qed.

Lemma created_slot env now fuel depth sender tok P T D amt st st' id :
  run env now fuel depth (CreateAuction sender tok P T D amt) st = inr (st', id) ->
  slot st' id = {| seller := sender; token := tok; initialPrice := P; startTime := now;
                   duration := T; decayRate := D; amount := amt; active := true |}.
Proof.
  rewrite run_unfold. simpl. intros H.
  apply createAuction_inv in H as (st1 & b & _ & _ & _ & _ & _ & _ & _ & _ & -> & ->).
  unfold slot, emit, store; simpl. by rewrite lookup_insert_eq.
Qed.

(** X1. A successful [createAuction] hands out an id at or above the old
    counter and leaves the counter one above it; the record stored under
    that id holds exactly the arguments, the caller as seller and the block
    time as start time, and is active; the last event announces it; and the
    price asked in the same block is the initial price. *)
Theorem createAuction_stores_and_quotes env now fuel depth sender tok P T D amt st st' id :
  run env now fuel depth (CreateAuction sender tok P T D amt) st = inr (st', id) ->
  auctionCount st <= id /\
  auctionCount st' = id + 1 /\
  slot st' id = {| seller := sender; token := tok; initialPrice := P; startTime := now;
                   duration := T; decayRate := D; amount := amt; active := true |} /\
  last (events st') = Some (AuctionCreated id sender tok P T D amt) /\
  getCurrentPrice now id st' = inr P.
Proof.
  rewrite run_unfold. simpl. intros H.
  apply createAuction_inv in H
    as (st1 & b & HP & HT & HD & Hamt & Hmax & Hlt & Hc & Hcount & -> & ->).
  assert (slot (emit (AuctionCreated (auctionCount st1) sender tok P T D amt)
            (store (auctionCount st1)
               {| seller := sender; token := tok; initialPrice := P; startTime := now;
                  duration := T; decayRate := D; amount := amt; active := true |}
               (set_count (auctionCount st1 + 1) st1))) (auctionCount st1)
          = {| seller := sender; token := tok; initialPrice := P; startTime := now;
               duration := T; decayRate := D; amount := amt; active := true |}) as Hslot.
  { unfold slot, emit, store; simpl. by rewrite lookup_insert_eq. }
  split; [| split; [| split; [| split]]].
  - apply (call_extends (extcall_of env now fuel depth) depth) in Hc;
      [| intros; eapply extcall_of_extends; eauto].
    apply (ext_count _ _ _ Hc).
  - reflexivity.
  - exact Hslot.
  - simpl. by rewrite last_snoc.
  - unfold getCurrentPrice, checked_sub, checked_mul. rewrite Hslot. simpl.
    rewrite Z.ltb_irrefl. simpl. rewrite Z.sub_diag, !Z.mul_0_l.
    destruct (T <=? 0) eqn:E1; [lia |]. simpl.
    destruct (P <=? 0) eqn:E3; [lia |].
    destruct (P <? 0) eqn:E4; [lia |]. unfold ret. f_equal. lia.
Qed.

Lemma createAuction_stores_and_quotes_witness :
  auctionCount init <= 0 /\
  auctionCount s_created = 0 + 1 /\
  slot s_created 0 = {| seller := 7; token := 9; initialPrice := 1000; startTime := 100;
                        duration := 100; decayRate := 9; amount := 10; active := true |} /\
  last (events s_created) = Some (AuctionCreated 0 7 9 1000 100 9 10) /\
  getCurrentPrice 100 0 s_created = inr 1000.
Proof.
  apply (createAuction_stores_and_quotes honest 100 3 0%nat 7 9 1000 100 9 10 init s_created 0).
  vm_compute. reflexivity.
Defined.

(** X2. Where outbound calls return without calling back, [createAuction]
    succeeds exactly when the four parameters are positive, duration *
    decayRate fits in 256 bits and is below the initial price, and the
    counter has not reached the largest 256-bit number; the value the token
    returns plays no part. *)
Theorem createAuction_succeeds_iff env now fuel depth sender tok P T D amt st :
  quiet env ->
  (exists st' id, run env now fuel depth (CreateAuction sender tok P T D amt) st
                  = inr (st', id))
  <-> 0 < P /\ 0 < T /\ 0 < D /\ 0 < amt /\ T * D <= MAX_UINT256 /\ T * D < P /\
      auctionCount st < MAX_UINT256.
Proof.
  intros Hq. rewrite run_unfold. simpl. split.
  - intros (st' & id & H).
    apply createAuction_inv in H
      as (st1 & b & HP & HT & HD & Hamt & Hmax & Hlt & Hc & Hcount & _ & _).
    apply quiet_call_inv in Hc as ->; [| exact Hq]. simpl in Hcount. tauto.
  - intros (HP & HT & HD & Hamt & Hmax & Hlt & Hcount).
    unfold createAuction, checked_mul, checked_inc.
    destruct (P <=? 0) eqn:E1; [lia |]. destruct (T <=? 0) eqn:E2; [lia |].
    destruct (D <=? 0) eqn:E3; [lia |]. destruct (amt <=? 0) eqn:E4; [lia |].
    destruct (MAX_UINT256 <? T * D) eqn:E5; [lia |]. simpl.
    destruct (P <=? T * D) eqn:E6; [lia |].
    destruct (quiet_call env now fuel depth (TokenTransferFrom tok sender amt) st Hq)
      as [ok ->]. simpl.
    destruct (MAX_UINT256 <? auctionCount st + 1) eqn:E7; [lia |]. simpl. eauto.
Qed.

Lemma createAuction_succeeds_iff_witness :
  (exists st' id, run honest 100 3 0 (CreateAuction 7 9 1000 100 9 10) init = inr (st', id))
  <-> 0 < 1000 /\ 0 < 100 /\ 0 < 9 /\ 0 < 10 /\ 100 * 9 <= MAX_UINT256 /\ 100 * 9 < 1000 /\
      auctionCount init < MAX_UINT256.
Proof.
  apply (createAuction_succeeds_iff honest 100 3 0%nat 7 9 1000 100 9 10 init quiet_honest).
Defined.

Lemma quiet_buy_ok env now fuel depth sender value id st price :
  quiet env -> active (slot st id) = true ->
  getCurrentPrice now id st = inr price -> 0 < price <= value ->
  exists st', run env now fuel depth (Buy sender value id) st = inr (st', 0).
Proof.
  intros Hq Hact Hprice Hrange. rewrite run_unfold. simpl.
  unfold buy. rewrite Hact, Hprice. simpl.
  destruct (price <=? 0) eqn:E1; [lia |]. destruct (value <? price) eqn:E2; [lia |].
  match goal with |- context [call ?h ?d ?o ?s] =>
    destruct (quiet_call env now fuel depth o s Hq) as [ok2 ->] end. simpl.
  match goal with |- context [call ?h ?d ?o ?s] =>
    destruct (quiet_call env now fuel depth o s Hq) as [ok3 ->] end. simpl.
  destruct (price <? value) eqn:E3; simpl; [| eauto].
  unfold checked_sub. rewrite E2. simpl.
  match goal with |- context [call ?h ?d ?o ?s] =>
    destruct (quiet_call env now fuel depth o s Hq) as [ok4 ->] end. simpl. eauto.
Qed.

Lemma quiet_cancel_ok env now fuel depth sender id st :
  quiet env -> sender = seller (slot st id) -> active (slot st id) = true ->
  exists st', run env now fuel depth (CancelAuction sender id) st = inr (st', 0).
Proof.
  intros Hq Hs Hact. rewrite run_unfold. simpl. unfold cancelAuction.
  rewrite Hact. apply Z.eqb_eq in Hs. rewrite Hs. simpl.
  match goal with |- context [call ?h ?d ?o ?s] =>
    destruct (quiet_call env now fuel depth o s Hq) as [ok2 ->] end. simpl. eauto.
Qed.

(** X3. Where outbound calls return without calling back, [buy] succeeds
    exactly when the auction is active, its current price is positive and
    the payment covers it. *)
Theorem buy_succeeds_iff env now fuel depth sender value id st :
  quiet env ->
  (exists st', run env now fuel depth (Buy sender value id) st = inr (st', 0))
  <-> active (slot st id) = true /\
      exists price, getCurrentPrice now id st = inr price /\ 0 < price <= value.
Proof.
  intros Hq. split.
  - rewrite run_unfold. simpl. intros (st' & H). apply bind_inr in H as (s & H & _).
    apply buy_inv in H as (price & _ & _ & _ & _ & _ & Hact & Hprice & Hrange & _). eauto.
  - intros (Hact & price & Hprice & Hrange). eapply quiet_buy_ok; eauto.
Qed.

Lemma buy_succeeds_iff_witness :
  (exists st', run honest 150 3 0 (Buy 8 600 0) s_created = inr (st', 0))
  <-> active (slot s_created 0) = true /\
      exists price, getCurrentPrice 150 0 s_created = inr price /\ 0 < price <= 600.
Proof.
  apply (buy_succeeds_iff honest 150 3 0%nat 8 600 0 s_created quiet_honest).
Defined.

(** X4. Where outbound calls return without calling back, [cancelAuction]
    succeeds exactly when the caller is the stored seller and the auction
    is active; the block time plays no part, so an auction whose price has
    run down to zero can still be cancelled. *)
Theorem cancelAuction_succeeds_iff env now fuel depth sender id st :
  quiet env ->
  (exists st', run env now fuel depth (CancelAuction sender id) st = inr (st', 0))
  <-> sender = seller (slot st id) /\ active (slot st id) = true.
Proof.
  intros Hq. split.
  - rewrite run_unfold. simpl. intros (st' & H). apply bind_inr in H as (s & H & _).
    apply cancelAuction_inv in H as (_ & _ & Hs & Hact & _). auto.
  - intros (Hs & Hact). by apply quiet_cancel_ok.
Qed.

Lemma cancelAuction_succeeds_iff_witness :
  (exists st', run honest 5000 3 0 (CancelAuction 7 0) s_created = inr (st', 0))
  <-> 7 = seller (slot s_created 0) /\ active (slot s_created 0) = true.
Proof.
  apply (cancelAuction_succeeds_iff honest 5000 3 0%nat 7 0 s_created quiet_honest).
Defined.

(** ** The price of a stored auction *)

Lemma stored_price now id st :
  wf st -> active (slot st id) = true -> startTime (slot st id) <= now ->
  getCurrentPrice now id st
  = inr (if duration (slot st id) <=? now - startTime (slot st id) then 0
         else initialPrice (slot st id)
              - (now - startTime (slot st id)) * decayRate (slot st id)).
Proof.
  intros Hwf Hact Hnow. destruct (wf_sound _ _ Hwf Hact) as (HT & HD & _ & Hmax & Hlt).
  unfold getCurrentPrice, checked_sub, checked_mul. rewrite Hact. simpl.
  destruct (now <? _) eqn:E1; [lia |]. simpl.
  destruct (duration _ <=? _) eqn:E2; simpl; [reflexivity |].
  destruct (MAX_UINT256 <? _) eqn:E3; [nia |]. simpl.
  destruct (initialPrice _ <=? _) eqn:E4; [nia |].
  destruct (initialPrice _ <? _) eqn:E5; [lia | reflexivity].
Qed.

(** X5. For an active auction stored by [createAuction], from its start
    time on [getCurrentPrice] always returns: the price is zero exactly
    when the duration has passed; before that it is initialPrice - elapsed *
    decayRate without any clamping, stays above initialPrice - duration *
    decayRate and so is positive; and it never exceeds the initial price. *)
Theorem price_positive_until_end now id st :
  wf st -> active (slot st id) = true -> startTime (slot st id) <= now ->
  exists p, getCurrentPrice now id st = inr p /\
    (p = 0 <-> duration (slot st id) <= now - startTime (slot st id)) /\
    (now - startTime (slot st id) < duration (slot st id) ->
     p = initialPrice (slot st id) - (now - startTime (slot st id)) * decayRate (slot st id) /\
     0 <= initialPrice (slot st id) - duration (slot st id) * decayRate (slot st id) < p) /\
    p <= initialPrice (slot st id).
Proof.
  intros Hwf Hact Hnow. destruct (wf_sound _ _ Hwf Hact) as (HT & HD & _ & Hmax & Hlt).
  eexists. split; [by apply stored_price |].
  destruct (duration _ <=? _) eqn:E; repeat split; intros; try nia; try lia.
Qed.

Lemma price_positive_until_end_witness :
  exists p, getCurrentPrice 150 0 s_created = inr p /\
    (p = 0 <-> duration (slot s_created 0) <= 150 - startTime (slot s_created 0)) /\
    (150 - startTime (slot s_created 0) < duration (slot s_created 0) ->
     p = initialPrice (slot s_created 0)
         - (150 - startTime (slot s_created 0)) * decayRate (slot s_created 0) /\
     0 <= initialPrice (slot s_created 0)
          - duration (slot s_created 0) * decayRate (slot s_created 0) < p) /\
    p <= initialPrice (slot s_created 0).
Proof.
  apply (price_positive_until_end 150 0 s_created s_created_wf); vm_compute; congruence.
Defined.

(** ** How a purchase can fail *)

(** Once its three checks have passed, [buy] raises no failure of its
    own: it fails only with what one of its outbound calls reverted with. *)
Lemma buy_past_checks env now fuel depth sender value id st price e :
  active (slot st id) = true ->
  getCurrentPrice now id st = inr price -> 0 < price <= value ->
  buy (extcall_of env now fuel depth) now depth sender value id st = inl e ->
  exists o s, extcall_of env now fuel depth o s = inl e.
Proof.
  intros Hact Hprice Hrange. unfold buy. rewrite Hact, Hprice. simpl.
  destruct (price <=? 0) eqn:E1; [lia |]. destruct (value <? price) eqn:E2; [lia |].
  unfold call.
  match goal with |- bind ?m _ = _ -> _ => destruct m as [e2 | [st2 b2]] eqn:H2 end; simpl.
  { intros [= <-]. eauto. }
  match goal with |- bind ?m _ = _ -> _ => destruct m as [e3 | [st3 b3]] eqn:H3 end; simpl.
  { intros [= <-]. eauto. }
  destruct (price <? value) eqn:E3; simpl; [| discriminate].
  unfold checked_sub. rewrite E2. simpl.
  match goal with |- bind (bind ?m _) _ = _ -> _ =>
    destruct m as [e4 | [st4 b4]] eqn:H4 end; simpl.
  { intros [= <-]. eauto. }
  discriminate.
Qed.

(** X6. For an active auction stored by [createAuction] and a block time
    not before its start: when the duration has passed, [buy] fails with
    "Auction expired" whatever is paid; when it has not and the payment is
    below initialPrice - elapsed * decayRate, [buy] fails with "Insufficient
    payment"; and when it has not and the payment covers that price, [buy]
    raises no failure of its own, so that it can fail only with the revert
    data of one of its outbound calls. *)
Theorem buy_failure_kinds env now fuel depth sender value id st :
  wf st -> active (slot st id) = true -> startTime (slot st id) <= now ->
  (duration (slot st id) <= now - startTime (slot st id) ->
   run env now fuel depth (Buy sender value id) st = inl AuctionExpired) /\
  (now - startTime (slot st id) < duration (slot st id) ->
   value < initialPrice (slot st id)
           - (now - startTime (slot st id)) * decayRate (slot st id) ->
   run env now fuel depth (Buy sender value id) st = inl InsufficientPayment) /\
  (now - startTime (slot st id) < duration (slot st id) ->
   initialPrice (slot st id)
     - (now - startTime (slot st id)) * decayRate (slot st id) <= value ->
   forall e, run env now fuel depth (Buy sender value id) st = inl e ->
     exists o s, extcall_of env now fuel depth o s = inl e).
Proof.
  intros Hwf Hact Hnow. destruct (wf_sound _ _ Hwf Hact) as (HT & HD & _ & Hmax & Hlt).
  pose proof (stored_price now id st Hwf Hact Hnow) as Hprice.
  rewrite run_unfold. simpl.
  destruct (duration (slot st id) <=? now - startTime (slot st id)) eqn:E in Hprice.
  - split; [| split]; try (intros; lia).
    intros _. unfold buy. rewrite Hact, Hprice. reflexivity.
  - set (p := initialPrice (slot st id)
              - (now - startTime (slot st id)) * decayRate (slot st id)) in *.
    assert (0 < p) as Hp by (unfold p; nia).
    split; [| split].
    + intros; lia.
    + intros _ Hless. unfold buy. rewrite Hact, Hprice. simpl.
      destruct (p <=? 0) eqn:E1; [lia |].
      destruct (value <? p) eqn:E2; [reflexivity | lia].
    + intros _ Hcover e He.
      destruct (buy _ _ _ _ _ _ _) as [e' | s] eqn:Hb; simpl in He; [| discriminate].
      injection He as ->.
      apply (buy_past_checks env now fuel depth sender value id st p _ Hact Hprice);
        [lia | exact Hb].
Qed.

Lemma buy_failure_kinds_witness :
  (duration (slot s_created 0) <= 150 - startTime (slot s_created 0) ->
   run honest 150 3 0 (Buy 8 500 0) s_created = inl AuctionExpired) /\
  (150 - startTime (slot s_created 0) < duration (slot s_created 0) ->
   500 < initialPrice (slot s_created 0)
         - (150 - startTime (slot s_created 0)) * decayRate (slot s_created 0) ->
   run honest 150 3 0 (Buy 8 500 0) s_created = inl InsufficientPayment) /\
  (150 - startTime (slot s_created 0) < duration (slot s_created 0) ->
   initialPrice (slot s_created 0)
     - (150 - startTime (slot s_created 0)) * decayRate (slot s_created 0) <= 500 ->
   forall e, run honest 150 3 0 (Buy 8 500 0) s_created = inl e ->
     exists o s, extcall_of honest 150 3 0 o s = inl e).
Proof.
  apply (buy_failure_kinds honest 150 3 0%nat 8 500 0 s_created s_created_wf);
    vm_compute; congruence.
Defined.



(** ** Cancellation and the payment *)

(** X8. A [cancelAuction] that succeeds was called by the stored seller on
    an active auction; its own frame issues one outbound call only, the
    transfer of the whole escrowed amount of the token back to the seller,
    and sends no native currency; it leaves the auction inactive and
    [AuctionCancelled] as the last event. *)
Theorem cancelAuction_returns_escrow env now fuel depth sender id st st' v :
  wf st ->
  run env now fuel depth (CancelAuction sender id) st = inr (st', v) ->
  sender = seller (slot st id) /\
  active (slot st id) = true /\
  active (slot st' id) = false /\
  last (events st') = Some (AuctionCancelled id) /\
  exists new, trace st' = trace st ++ new /\
    own depth new = [TokenTransfer (token (slot st id)) sender (amount (slot st id))] /\
    native_total (own depth new) = 0.
Proof.
  intros Hwf Hrun.
  apply run_cancelAuction_effects in Hrun
    as (evs & new & Hact & Hs & _ & Hslot & Hev & _ & Htrace & Hown); [| exact Hwf].
  repeat split; auto.
  - by rewrite Hslot.
  - by rewrite Hev, app_assoc, last_snoc.
  - exists new. rewrite Hown, <- Hs. auto.
Qed.

Lemma cancelAuction_returns_escrow_witness :
  7 = seller (slot s_created 0) /\
  active (slot s_created 0) = true /\
  active (slot s_cancelled 0) = false /\
  last (events s_cancelled) = Some (AuctionCancelled 0) /\
  exists new, trace s_cancelled = trace s_created ++ new /\
    own 0 new = [TokenTransfer (token (slot s_created 0)) 7 (amount (slot s_created 0))] /\
    native_total (own 0 new) = 0.
Proof.
  apply (cancelAuction_returns_escrow honest 150 3 0%nat 7 0 s_created s_cancelled 0
           s_created_wf).
  vm_compute. reflexivity.
Defined.

(** X9. A successful [buy] keeps none of the payment: the native transfers
    its own frame issues add up to exactly [msg.value]. *)
Theorem buy_forwards_whole_payment env now fuel depth payer value id st st' v :
  wf st ->
  run env now fuel depth (Buy payer value id) st = inr (st', v) ->
  exists new, trace st' = trace st ++ new /\ native_total (own depth new) = value.
Proof.
  intros Hwf Hrun.
  apply run_buy_effects in Hrun
    as (price & evs & new & _ & _ & Hrange & _ & _ & _ & _ & Htrace & Hown); [| exact Hwf].
  exists new. split; [exact Htrace |]. rewrite Hown.
  destruct (price <? value) eqn:E; simpl; lia.
Qed.

Lemma buy_forwards_whole_payment_witness :
  exists new, trace s_sold = trace s_created ++ new /\ native_total (own 0 new) = 600.
Proof.
  apply (buy_forwards_whole_payment honest 150 3 0%nat 8 600 0 s_created s_sold 0
           s_created_wf).
  vm_compute. reflexivity.
Defined.

(** ** What later calls cannot undo *)

Lemma later_s_created_s_sold : later s_created s_sold.
Proof.
  apply (later_step s_created honest 150 3 0%nat (Buy 8 600 0) s_created s_sold 0);
    [constructor | vm_compute; reflexivity].
Qed.

(** X10. Once an id has been handed out, no later call changes the seller,
    token, initial price, start time, duration, decay rate or amount stored
    under it, and an auction that is inactive never becomes active again. *)
Theorem auction_parameters_are_final st st' id :
  later st st' -> id < auctionCount st ->
  seller (slot st' id) = seller (slot st id) /\
  token (slot st' id) = token (slot st id) /\
  initialPrice (slot st' id) = initialPrice (slot st id) /\
  startTime (slot st' id) = startTime (slot st id) /\
  duration (slot st' id) = duration (slot st id) /\
  decayRate (slot st' id) = decayRate (slot st id) /\
  amount (slot st' id) = amount (slot st id) /\
  (active (slot st' id) = true -> active (slot st id) = true).
Proof.
  intros Hl Hlt. apply later_extends in Hl.
  destruct (ext_slot _ _ _ Hl id Hlt) as [-> | ->]; simpl; repeat split; auto; discriminate.
Qed.

Lemma auction_parameters_are_final_witness :
  seller (slot s_sold 0) = seller (slot s_created 0) /\
  token (slot s_sold 0) = token (slot s_created 0) /\
  initialPrice (slot s_sold 0) = initialPrice (slot s_created 0) /\
  startTime (slot s_sold 0) = startTime (slot s_created 0) /\
  duration (slot s_sold 0) = duration (slot s_created 0) /\
  decayRate (slot s_sold 0) = decayRate (slot s_created 0) /\
  amount (slot s_sold 0) = amount (slot s_created 0) /\
  (active (slot s_sold 0) = true -> active (slot s_created 0) = true).
Proof.
  apply (auction_parameters_are_final s_created s_sold 0 later_s_created_s_sold).
  vm_compute. reflexivity.
Defined.

(** X11. Successful calls only add: the counter never goes down, and the
    event log and the record of outbound calls of an earlier state are
    prefixes of those of every later state. *)
Theorem logs_are_append_only st st' :
  later st st' ->
  auctionCount st <= auctionCount st' /\
  events st `prefix_of` events st' /\
  trace st `prefix_of` trace st'.
Proof.
  intros Hl. apply later_extends in Hl.
  destruct (ext_events _ _ _ Hl) as (evs & E & _).
  destruct (ext_trace _ _ _ Hl) as (t & T & _).
  split; [apply (ext_count _ _ _ Hl) |]. split; [by exists evs | by exists t].
Qed.

Lemma logs_are_append_only_witness :
  auctionCount s_created <= auctionCount s_sold /\
  events s_created `prefix_of` events s_sold /\
  trace s_created `prefix_of` trace s_sold.
Proof. apply (logs_are_append_only s_created s_sold later_s_created_s_sold). Defined.

(** ** The counter, the mapping and the log of creations *)

Lemma created_ids_app evs1 evs2 :
  created_ids (evs1 ++ evs2) = created_ids evs1 ++ created_ids evs2.
Proof. apply omap_app. Qed.

Lemma ledger_init : ledger init.
Proof.
  unfold ledger, init; simpl. split; [unfold MAX_UINT256; lia |]. split; [| split].
  - intros id. rewrite lookup_empty. split; [intros [a Ha]; discriminate | lia].
  - reflexivity.
  - intros id a Ha. by rewrite lookup_empty in Ha.
Qed.

Lemma ledger_flip id st :
  ledger st -> active (slot st id) = true ->
  ledger (store id (deactivate (slot st id)) st).
Proof.
  intros (Hcount & Hdom & Hids & Hann) Hact.
  destruct (active_stored _ _ Hact) as [a0 Ha0].
  assert (slot st id = a0) as Hslot by (unfold slot; by rewrite Ha0).
  unfold ledger; simpl. split; [exact Hcount |]. split; [| split; [exact Hids |]].
  - intros k. rewrite <- Hdom. destruct (decide (id = k)) as [<- | Hne].
    + rewrite lookup_insert_eq. split; eauto.
    + by rewrite lookup_insert_ne.
  - intros k b Hk. destruct (decide (id = k)) as [<- | Hne].
    + rewrite lookup_insert_eq in Hk. injection Hk as <-. rewrite Hslot.
      apply (Hann id a0 Ha0).
    + rewrite lookup_insert_ne in Hk by exact Hne. by apply Hann.
Qed.

Lemma ledger_emit e st : created_ids [e] = [] -> ledger st -> ledger (emit e st).
Proof.
  intros He (Hcount & Hdom & Hids & Hann). unfold ledger; simpl.
  split; [exact Hcount |]. split; [exact Hdom |]. split.
  - by rewrite created_ids_app, He, app_nil_r.
  - intros id a Ha. apply elem_of_app. left. by apply Hann.
Qed.

Lemma ledger_create sender tok P T D amt now st :
  ledger st -> auctionCount st < MAX_UINT256 ->
  ledger (emit (AuctionCreated (auctionCount st) sender tok P T D amt)
            (store (auctionCount st)
               {| seller := sender; token := tok; initialPrice := P; startTime := now;
                  duration := T; decayRate := D; amount := amt; active := true |}
               (set_count (auctionCount st + 1) st))).
Proof.
  intros (Hcount & Hdom & Hids & Hann) Hmax. unfold ledger; simpl.
  split; [lia |]. split; [| split].
  - intros id. destruct (decide (auctionCount st = id)) as [<- | Hne].
    + rewrite lookup_insert_eq. split; [lia | eauto].
    + rewrite lookup_insert_ne by exact Hne. rewrite Hdom. lia.
  - rewrite created_ids_app, Hids. simpl.
    rewrite (seqZ_app 0 (auctionCount st) 1) by lia.
    f_equal.
  - intros id a. destruct (decide (auctionCount st = id)) as [<- | Hne].
    + rewrite lookup_insert_eq. intros [= <-]. apply elem_of_app. right.
      unfold announcement; simpl. apply list_elem_of_singleton. reflexivity.
    + rewrite lookup_insert_ne by exact Hne. intros Ha. apply elem_of_app. left.
      by apply Hann.
Qed.

Lemma dispatch_ledger env now fuel depth c st st' v :
  (forall o s s' b, extcall_of env now fuel depth o s = inr (s', b) -> ledger s -> ledger s') ->
  dispatch (extcall_of env now fuel depth) now depth c st = inr (st', v) ->
  ledger st -> ledger st'.
Proof.
  intros Hext H Hl.
  assert (forall o s s' b, call (extcall_of env now fuel depth) depth o s = inr (s', b) ->
            ledger s -> ledger s') as Hcall.
  { unfold call. intros o s s' b Hc Hs. exact (Hext _ _ _ _ Hc Hs). }
  destruct c as [sender tok P T D amt | i | sender value i | sender i]; simpl in H.
  - apply createAuction_inv in H as (st1 & b & _ & _ & _ & _ & _ & _ & Hc & Hmax & _ & ->).
    apply ledger_create; eauto.
  - apply bind_inr in H as (p & _ & [= <- _]). exact Hl.
  - apply bind_inr in H as (s & H & [= <- _]).
    apply buy_inv in H as (price & st2 & b2 & st3 & b3 & st4 & Hact & _ & _
                            & Hc2 & Hc3 & Hc4 & ->).
    apply ledger_emit; [reflexivity |].
    assert (ledger st3) as Hl3 by eauto using ledger_flip.
    destruct (price <? value); [destruct Hc4 as [b4 Hc4]; eauto | by subst].
  - apply bind_inr in H as (s & H & [= <- _]).
    apply cancelAuction_inv in H as (st2 & b2 & _ & Hact & Hc2 & ->).
    apply ledger_emit; [reflexivity |]. eauto using ledger_flip.
Qed.

Lemma run_ledger env now fuel depth c st st' v :
  run env now fuel depth c st = inr (st', v) -> ledger st -> ledger st'.
Proof.
  apply (run_rel (fun s s' => ledger s -> ledger s')); auto.
  intros e n f d c0 s s' v0. apply dispatch_ledger.
Qed.

Lemma reachable_ledger st : reachable st -> ledger st.
Proof.
  induction 1 as [| env now fuel c st st' v _ IH Hrun];
    [apply ledger_init | eauto using run_ledger].
Qed.

(** X12. In every reachable state the counter is a 256-bit number, a
    record is stored under an id exactly when the id lies between 0 and the
    counter, and every stored record still meets what [createAuction]
    checked: positive duration, decay rate and amount, and a product
    duration * decayRate that fits in 256 bits and is below the initial
    price.  Calls made back into the contract during a token transfer do not
    disturb this. *)
Theorem stored_ids_are_dense st :
  reachable st ->
  0 <= auctionCount st <= MAX_UINT256 /\
  (forall id, is_Some (auctions st !! id) <-> 0 <= id < auctionCount st) /\
  (forall id a, auctions st !! id = Some a -> sound a).
Proof.
  intros Hr. destruct (reachable_ledger st Hr) as (Hcount & Hdom & _).
  split; [exact Hcount |]. split; [exact Hdom |].
  intros id a Ha. exact (proj2 (reachable_wf st Hr id a Ha)).
Qed.

Lemma stored_ids_are_dense_witness :
  0 <= auctionCount s_sold <= MAX_UINT256 /\
  (forall id, is_Some (auctions s_sold !! id) <-> 0 <= id < auctionCount s_sold) /\
  (forall id a, auctions s_sold !! id = Some a -> sound a).
Proof. apply (stored_ids_are_dense s_sold reachable_s_sold). Defined.

(** X13. In every reachable state the [AuctionCreated] events of the log
    carry the ids 0, 1, ... up to the counter, each once and in this order,
    and for every stored record the log holds the [AuctionCreated] event
    with its id, seller, token, initial price, duration, decay rate and
    amount. *)
Theorem creations_are_logged st :
  reachable st ->
  created_ids (events st) = seqZ 0 (auctionCount st) /\
  (forall id a, auctions st !! id = Some a -> announcement id a ∈ events st).
Proof.
  intros Hr. destruct (reachable_ledger st Hr) as (_ & _ & Hids & Hann). auto.
Qed.

Lemma creations_are_logged_witness :
  created_ids (events s_sold) = seqZ 0 (auctionCount s_sold) /\
  (forall id a, auctions s_sold !! id = Some a -> announcement id a ∈ events s_sold).
Proof. apply (creations_are_logged s_sold reachable_s_sold). Defined.

(** ** Terminal notifications and the stored status *)

Lemma settledb_settled id st : settledb id st = true <-> settled id st.
Proof.
  unfold settledb, settled. rewrite andb_true_iff, negb_true_iff, Z.ltb_lt. tauto.
Qed.

Lemma steady_refl st : wf st -> steady_after st st.
Proof.
  intros Hwf. split; [exact Hwf |]. split; [auto |].
  exists []. split; [by rewrite app_nil_r |]. intros id. by destruct (settledb id st).
Qed.

Lemma steady_trans a b c : steady_after a b -> steady_after b c -> steady_after a c.
Proof.
  intros (_ & Pab & e1 & E1 & C1) (Hwf & Pbc & e2 & E2 & C2).
  split; [exact Hwf |]. split; [auto |].
  exists (e1 ++ e2). split; [by rewrite E2, E1, app_assoc |].
  intros id. rewrite count_terminal_app, C1, C2.
  specialize (Pab id). specialize (Pbc id).
  destruct (settledb id a), (settledb id b), (settledb id c); auto;
    try (discriminate Pab; reflexivity); discriminate Pbc; reflexivity.
Qed.

Lemma extends_persist d st st' id :
  extends d st st' -> settledb id st = true -> settledb id st' = true.
Proof. rewrite !settledb_settled. apply extends_settled. Qed.

Lemma count_terminal_one id e :
  count_terminal id [e] = if terminal id e then 1%nat else 0%nat.
Proof.
  unfold count_terminal. rewrite filter_cons. destruct (terminal id e); by case_decide.
Qed.

Section Accounting.
Variable env : Env.
Variable now : Z.
Variables fuel depth : nat.
Hypothesis extcall_steady :
  forall o s s' b, extcall_of env now fuel depth o s = inr (s', b) ->
    wf s -> steady_after s s'.

Lemma call_steady o s s' b :
  call (extcall_of env now fuel depth) depth o s = inr (s', b) ->
  wf s -> steady_after s s'.
Proof.
  unfold call. intros H Hwf.
  destruct (extcall_steady _ _ _ _ H) as (Hwf' & P & evs & E & C); [exact Hwf |].
  split; [exact Hwf' |]. split; [exact P |]. exists evs. split; [exact E | exact C].
Qed.

(** The calls that follow the clearing of the flag, up to the final event. *)
Lemma settle_steady id e st st1 st4 :
  wf st -> active (slot st id) = true ->
  st1 = store id (deactivate (slot st id)) st ->
  steady_after st1 st4 ->
  (forall i, terminal i e = (id =? i)) ->
  steady_after st (emit e st4).
Proof.
  intros Hwf Hact -> (Hwf4 & P & evs & E & C) He.
  assert (settledb id (store id (deactivate (slot st id)) st) = true) as Hs1.
  { apply settledb_settled. by apply flipped_settled. }
  assert (forall i, i <> id ->
            settledb i (store id (deactivate (slot st id)) st) = settledb i st) as Hother.
  { intros i Hne. unfold settledb; simpl. by rewrite slot_store_ne. }
  split; [exact Hwf4 |]. split.
  - intros i Hi. change (settledb i (emit e st4)) with (settledb i st4).
    destruct (decide (i = id)) as [-> | Hne]; [auto |].
    apply P. by rewrite Hother.
  - exists (evs ++ [e]). split; [simpl in *; by rewrite E, app_assoc |].
    intros i. rewrite count_terminal_app, count_terminal_one, He, C.
    change (settledb i (emit e st4)) with (settledb i st4).
    destruct (decide (i = id)) as [-> | Hne].
    + rewrite Hs1, Z.eqb_refl, (P id Hs1).
      assert (settledb id st = false) as ->; [| reflexivity].
      unfold settledb. rewrite Hact. apply andb_false_r.
    + rewrite Hother by exact Hne.
      assert ((id =? i) = false) as -> by (apply Z.eqb_neq; congruence).
      destruct (settledb i st), (settledb i st4); reflexivity.
Qed.

Lemma dispatch_steady c st st' v :
  dispatch (extcall_of env now fuel depth) now depth c st = inr (st', v) ->
  wf st -> steady_after st st'.
Proof.
  intros H Hwf.
  assert (wf st') as Hwf'.
  { pose proof H as Hrun. rewrite <- run_unfold in Hrun.
    exact (ext_wf _ _ _ (run_extends _ _ _ _ _ _ _ _ Hrun) Hwf). }
  destruct c as [sender tok P T D amt | i | sender value i | sender i]; simpl in H.
  - apply createAuction_inv in H as (st1 & b & _ & _ & _ & _ & _ & _ & Hc & Hmax & _ & ->).
    eapply steady_trans; [exact (call_steady _ _ _ _ Hc Hwf) |].
    set (r := {| seller := sender; token := tok; initialPrice := P; startTime := now;
                 duration := T; decayRate := D; amount := amt; active := true |}) in *.
    set (e := AuctionCreated (auctionCount st1) sender tok P T D amt) in *.
    set (st2 := store (auctionCount st1) r (set_count (auctionCount st1 + 1) st1)) in *.
    assert (forall id, settledb id (emit e st2) = settledb id st1) as Hsame.
    { intros id. unfold settledb, st2; simpl.
      change (slot (emit e ?s) id) with (slot s id).
      destruct (decide (auctionCount st1 = id)) as [<- | Hne].
      - rewrite slot_store_eq. simpl. rewrite Z.ltb_irrefl. apply andb_false_r.
      - rewrite slot_store_ne by exact Hne.
        replace (id <? auctionCount st1 + 1) with (id <? auctionCount st1); [reflexivity |].
        destruct (id <? auctionCount st1) eqn:E1, (id <? auctionCount st1 + 1) eqn:E2;
          try reflexivity; lia. }
    split; [exact Hwf' |]. split; [intros id; by rewrite Hsame |].
    exists [e]. split; [reflexivity |]. intros id.
    rewrite count_terminal_one, Hsame. simpl. by destruct (settledb id st1).
  - apply bind_inr in H as (p & _ & [= <- _]). by apply steady_refl.
  - apply bind_inr in H as (s & H & [= <- _]).
    apply buy_inv in H as (price & st2 & b2 & st3 & b3 & st4 & Hact & _ & _
                            & Hc2 & Hc3 & Hc4 & ->).
    assert (wf (store i (deactivate (slot st i)) st)) as Hwf1
      by exact (ext_wf _ _ _ (extends_deactivate depth i st Hact) Hwf).
    pose proof (call_steady _ _ _ _ Hc2 Hwf1) as S2.
    pose proof (call_steady _ _ _ _ Hc3 (proj1 S2)) as S3.
    apply settle_steady with (id := i) (st1 := store i (deactivate (slot st i)) st);
      auto.
    eapply steady_trans; [exact S2 |]. eapply steady_trans; [exact S3 |].
    destruct (price <? value).
    + destruct Hc4 as [b4 Hc4]. exact (call_steady _ _ _ _ Hc4 (proj1 S3)).
    + subst st4. apply steady_refl. exact (proj1 S3).
  - apply bind_inr in H as (s & H & [= <- _]).
    apply cancelAuction_inv in H as (st2 & b2 & _ & Hact & Hc2 & ->).
    assert (wf (store i (deactivate (slot st i)) st)) as Hwf1
      by exact (ext_wf _ _ _ (extends_deactivate depth i st Hact) Hwf).
    apply settle_steady with (id := i) (st1 := store i (deactivate (slot st i)) st);
      auto.
    exact (call_steady _ _ _ _ Hc2 Hwf1).
Qed.
End Accounting.

Lemma run_steady env now fuel depth c st st' v :
  run env now fuel depth c st = inr (st', v) -> wf st -> steady_after st st'.
Proof.
  apply (run_rel (fun s s' => wf s -> steady_after s s')).
  - intros s. apply steady_refl.
  - intros a b c0 Hab Hbc Hwf. specialize (Hab Hwf).
    eapply steady_trans; [exact Hab | exact (Hbc (proj1 Hab))].
  - intros e n f d c0 s s' v0 Hext. apply dispatch_steady. exact Hext.
Qed.

Lemma reachable_steady st : reachable st -> steady_after init st.
Proof.
  induction 1 as [| env now fuel c st st' v _ IH Hrun].
  - apply steady_refl, wf_init.
  - eapply steady_trans; [exact IH |]. exact (run_steady _ _ _ _ _ _ _ _ Hrun (proj1 IH)).
Qed.

(** X14. In every reachable state the log and the storage agree on which
    auctions are over: for an id below the counter whose record is inactive
    the log holds exactly one terminal notification ([AuctionFinalized] or
    [AuctionCancelled]) with that id, and for every other id from 0 up it
    holds none.
    This covers calls made back into the contract during a transfer. *)
Theorem terminal_events_match_storage st id :
  reachable st -> 0 <= id ->
  count_terminal id (events st) = if settledb id st then 1%nat else 0%nat.
Proof.
  intros Hr Hid. destruct (reachable_steady st Hr) as (_ & _ & evs & E & C).
  simpl in E. rewrite E, C.
  assert (settledb id init = false) as ->; [| reflexivity].
  unfold settledb; simpl. destruct (id <? 0) eqn:E0; [lia | reflexivity].
Qed.

Lemma terminal_events_match_storage_witness :
  count_terminal 0 (events s_sold) = if settledb 0 s_sold then 1%nat else 0%nat.
Proof. apply (terminal_events_match_storage s_sold 0 reachable_s_sold). lia. Defined.

(** ** The token books *)

Lemma held_app tok t1 t2 : held tok (t1 ++ t2) = held tok t1 + held tok t2.
Proof. induction t1 as [| e t1 IH]; simpl; [reflexivity | rewrite IH; lia]. Qed.

Lemma locked_fresh tok k a (m : gmap Z Auction) :
  m !! k = None ->
  map_fold (fun _ x acc => stake tok x + acc) 0 (<[k := a]> m)
  = stake tok a + map_fold (fun _ x acc => stake tok x + acc) 0 m.
Proof.
  intros Hk. apply (map_fold_insert_L (fun _ x acc => stake tok x + acc)); [| exact Hk].
  intros; lia.
Qed.

Lemma locked_replace tok k a a0 (m : gmap Z Auction) :
  m !! k = Some a0 ->
  map_fold (fun _ x acc => stake tok x + acc) 0 (<[k := a]> m)
  = stake tok a - stake tok a0 + map_fold (fun _ x acc => stake tok x + acc) 0 m.
Proof.
  intros Hk.
  rewrite (map_fold_delete_L (fun _ x acc => stake tok x + acc) 0 k a0 m);
    [| intros; lia | exact Hk].
  rewrite <- (insert_delete_eq m k a).
  rewrite locked_fresh by apply lookup_delete_eq. lia.
Qed.

Lemma books_record_call tok d o st :
  books tok (record_call d o st) = books tok st + flow tok o.
Proof. unfold books, locked; simpl. rewrite held_app. simpl. lia. Qed.

Lemma books_flip tok id st :
  active (slot st id) = true ->
  books tok (store id (deactivate (slot st id)) st)
  = books tok st + (if token (slot st id) =? tok then amount (slot st id) else 0).
Proof.
  intros Hact. destruct (active_stored _ _ Hact) as [a0 Ha0].
  assert (slot st id = a0) as Hslot by (unfold slot; by rewrite Ha0).
  unfold books, locked; simpl. rewrite (locked_replace tok id _ a0) by exact Ha0.
  rewrite Hslot in *. unfold stake; simpl. rewrite Hact. simpl. lia.
Qed.

Lemma books_create tok a n st :
  wf st -> active a = true ->
  books tok (store (auctionCount st) a (set_count n st))
  = books tok st - (if token a =? tok then amount a else 0).
Proof.
  intros Hwf Hact. unfold books, locked; simpl.
  rewrite locked_fresh.
  - unfold stake. rewrite Hact. simpl. lia.
  - destruct (auctions st !! auctionCount st) as [x |] eqn:E; [| reflexivity].
    destruct (Hwf _ _ E) as [Hlt _]. lia.
Qed.

Section Books.
Variable env : Env.
Variable now : Z.
Variables fuel depth : nat.
Hypothesis extcall_books :
  forall o s s' b, extcall_of env now fuel depth o s = inr (s', b) ->
    wf s -> forall tok, books tok s' = books tok s.

Lemma call_books o s s' b :
  call (extcall_of env now fuel depth) depth o s = inr (s', b) ->
  wf s -> wf s' /\ forall tok, books tok s' = books tok s + flow tok o.
Proof.
  intros H Hwf. split.
  - apply call_extends in H; [exact (ext_wf _ _ _ H Hwf) |].
    intros; eapply extcall_of_extends; eauto.
  - intros tok. unfold call in H.
    rewrite (extcall_books _ _ _ _ H); [apply books_record_call |].
    exact (ext_wf _ _ _ (extends_record_call depth o s) Hwf).
Qed.

Lemma dispatch_books c st st' v :
  dispatch (extcall_of env now fuel depth) now depth c st = inr (st', v) ->
  wf st -> forall tok, books tok st' = books tok st.
Proof.
  intros H Hwf tok.
  destruct c as [sender tk P T D amt | i | sender value i | sender i]; simpl in H.
  - apply createAuction_inv in H as (st1 & b & _ & _ & _ & _ & _ & _ & Hc & Hmax & _ & ->).
    destruct (call_books _ _ _ _ Hc Hwf) as [Hwf1 Hb1].
    change (books tok (emit ?e ?s)) with (books tok s).
    rewrite books_create by (exact Hwf1 || reflexivity). rewrite Hb1. simpl. lia.
  - apply bind_inr in H as (p & _ & [= <- _]). reflexivity.
  - apply bind_inr in H as (s & H & [= <- _]).
    apply buy_inv in H as (price & st2 & b2 & st3 & b3 & st4 & Hact & _ & _
                            & Hc2 & Hc3 & Hc4 & ->).
    assert (wf (store i (deactivate (slot st i)) st)) as Hwf1
      by exact (ext_wf _ _ _ (extends_deactivate depth i st Hact) Hwf).
    destruct (call_books _ _ _ _ Hc2 Hwf1) as [Hwf2 Hb2].
    destruct (call_books _ _ _ _ Hc3 Hwf2) as [Hwf3 Hb3].
    change (books tok (emit ?e ?s)) with (books tok s).
    assert (books tok st4 = books tok st3) as ->.
    { destruct (price <? value); [| by subst].
      destruct Hc4 as [b4 Hc4]. destruct (call_books _ _ _ _ Hc4 Hwf3) as [_ Hb4].
      rewrite Hb4. simpl. lia. }
    rewrite Hb3, Hb2, books_flip by exact Hact. rewrite slot_store_eq. simpl.
    destruct (token (slot st i) =? tok); lia.
  - apply bind_inr in H as (s & H & [= <- _]).
    apply cancelAuction_inv in H as (st2 & b2 & _ & Hact & Hc2 & ->).
    assert (wf (store i (deactivate (slot st i)) st)) as Hwf1
      by exact (ext_wf _ _ _ (extends_deactivate depth i st Hact) Hwf).
    destruct (call_books _ _ _ _ Hc2 Hwf1) as [Hwf2 Hb2].
    change (books tok (emit ?e ?s)) with (books tok s).
    rewrite Hb2, books_flip by exact Hact. rewrite slot_store_eq. simpl.
    destruct (token (slot st i) =? tok); lia.
Qed.
End Books.

Lemma run_books env now fuel depth c st st' v :
  run env now fuel depth c st = inr (st', v) ->
  wf st -> wf st' /\ forall tok, books tok st' = books tok st.
Proof.
  apply (run_rel (fun s s' => wf s -> wf s' /\ forall tok, books tok s' = books tok s)).
  - auto.
  - intros a b c0 Hab Hbc Hwf. destruct (Hab Hwf) as [Hwfb Eb].
    destruct (Hbc Hwfb) as [Hwfc Ec]. split; [exact Hwfc |].
    intros tok. by rewrite Ec, Eb.
  - intros e n f d c0 s s' v0 Hext H Hwf. split.
    + rewrite <- run_unfold in H. exact (ext_wf _ _ _ (run_extends _ _ _ _ _ _ _ _ H) Hwf).
    + apply (dispatch_books e n f d) with (c := c0) (v := v0); auto.
      intros o s1 s2 b Hc Hwf1. exact (proj2 (Hext o s1 s2 b Hc Hwf1)).
Qed.

(** X15. In every reachable state the token books balance: for every
    token, the amounts the contract has asked in through [transferFrom]
    less the amounts it has sent out through [transfer], over all outbound
    calls at every depth, equal the sum of the amounts of the active
    auctions of that token.  The contract never sends out a token amount it
    has not asked in for an auction that has ended since. *)
Theorem token_books_balance st tok :
  reachable st -> held tok (trace st) = locked tok st.
Proof.
  intros Hr.
  assert (wf st /\ books tok st = 0) as [_ Hb]; [| unfold books in Hb; lia].
  induction Hr as [| env now fuel c st st' v Hr [Hwf IH] Hrun].
  - split; [apply wf_init | reflexivity].
  - destruct (run_books _ _ _ _ _ _ _ _ Hrun Hwf) as [Hwf' Hb]. split; [exact Hwf' |].
    by rewrite Hb.
Qed.

Lemma token_books_balance_witness :
  held 9 (trace s_created) = locked 9 s_created.
Proof. apply (token_books_balance s_created 9 reachable_s_created). Defined.

(** ** From creation to settlement *)

(** X16. An auction that [createAuction] has just stored can be ended both
    ways: where outbound calls return without calling back, a [buy] at any
    block time from the creation up to, but not including, creation +
    duration succeeds when it pays at least the initial price, and a
    [cancelAuction] by the creator succeeds at any block time. *)
Theorem created_auction_can_be_settled env now fuel depth sender tok P T D amt st st' id
    env' fuel' depth' t payer value :
  wf st ->
  run env now fuel depth (CreateAuction sender tok P T D amt) st = inr (st', id) ->
  quiet env' ->
  (now <= t < now + T -> P <= value ->
   exists st'', run env' t fuel' depth' (Buy payer value id) st' = inr (st'', 0)) /\
  (exists st'', run env' t fuel' depth' (CancelAuction sender id) st' = inr (st'', 0)).
Proof.
  intros Hwf Hrun Hq.
  assert (wf st') as Hwf' by exact (ext_wf _ _ _ (run_extends _ _ _ _ _ _ _ _ Hrun) Hwf).
  apply created_slot in Hrun as Hslot.
  assert (active (slot st' id) = true) as Hact by (by rewrite Hslot).
  destruct (wf_sound _ _ Hwf' Hact) as (HT & HD & _ & Hmax & Hlt).
  split.
  - intros Ht Hv.
    assert (startTime (slot st' id) <= t) as Hstart by (rewrite Hslot; simpl; lia).
    pose proof (stored_price t id st' Hwf' Hact Hstart) as Hp.
    eapply quiet_buy_ok; [exact Hq | exact Hact | exact Hp |].
    rewrite Hslot in *. simpl in *.
    destruct (T <=? t - now) eqn:E; [lia | nia].
  - apply quiet_cancel_ok; [exact Hq | by rewrite Hslot | exact Hact].
Qed.

Lemma created_auction_can_be_settled_witness :
  (100 <= 150 < 100 + 100 -> 1000 <= 1000 ->
   exists st'', run honest 150 3 0 (Buy 8 1000 0) s_created = inr (st'', 0)) /\
  (exists st'', run honest 150 3 0 (CancelAuction 7 0) s_created = inr (st'', 0)).
Proof.
  apply (created_auction_can_be_settled honest 100 3 0%nat 7 9 1000 100 9 10 init s_created 0
           honest 3 0%nat 150 8 1000 wf_init).
  - vm_compute. reflexivity.
  - apply quiet_honest.
Defined.

(** X17. The notification of a purchase tells what happened: after a
    successful [buy] the last event is [AuctionFinalized] with the auction
    id, the caller as buyer and as final price the current price of that
    block, which is the very amount the frame sent to the seller. *)
Theorem buy_reports_price_paid env now fuel depth payer value id st st' v :
  wf st ->
  run env now fuel depth (Buy payer value id) st = inr (st', v) ->
  exists price new,
    getCurrentPrice now id st = inr price /\
    last (events st') = Some (AuctionFinalized id payer price) /\
    trace st' = trace st ++ new /\
    NativeTransfer (seller (slot st id)) price ∈ own depth new.
Proof.
  intros Hwf Hrun.
  apply run_buy_effects in Hrun
    as (price & evs & new & _ & Hprice & _ & _ & _ & Hev & _ & Htrace & Hown); [| exact Hwf].
  exists price, new. split; [exact Hprice |]. split; [| split; [exact Htrace |]].
  - by rewrite Hev, app_assoc, last_snoc.
  - rewrite Hown. apply elem_of_cons. right. apply elem_of_cons. by left.
Qed.

Lemma buy_reports_price_paid_witness :
  exists price new,
    getCurrentPrice 150 0 s_created = inr price /\
    last (events s_sold) = Some (AuctionFinalized 0 8 price) /\
    trace s_sold = trace s_created ++ new /\
    NativeTransfer (seller (slot s_created 0)) price ∈ own 0 new.
Proof.
  apply (buy_reports_price_paid honest 150 3 0%nat 8 600 0 s_created s_sold 0 s_created_wf).
  vm_compute. reflexivity.
Defined.

(** ** A settlement is final *)

(** The entry points put together again from their steps. *)
Lemma createAuction_intro extcall now depth sender tok P T D amt st st1 b :
  0 < P -> 0 < T -> 0 < D -> 0 < amt -> T * D <= MAX_UINT256 -> T * D < P ->
  call extcall depth (TokenTransferFrom tok sender amt) st = inr (st1, b) ->
  auctionCount st1 < MAX_UINT256 ->
  createAuction extcall now depth sender tok P T D amt st
  = inr (emit (AuctionCreated (auctionCount st1) sender tok P T D amt)
           (store (auctionCount st1)
              {| seller := sender; token := tok; initialPrice := P; startTime := now;
                 duration := T; decayRate := D; amount := amt; active := true |}
              (set_count (auctionCount st1 + 1) st1)), auctionCount st1).
Proof.
  intros HP HT HD Hamt Hmax Hlt Hc Hcount. unfold createAuction, checked_mul, checked_inc.
  destruct (P <=? 0) eqn:E1; [lia |]. destruct (T <=? 0) eqn:E2; [lia |].
  destruct (D <=? 0) eqn:E3; [lia |]. destruct (amt <=? 0) eqn:E4; [lia |].
  destruct (MAX_UINT256 <? T * D) eqn:E5; [lia |]. simpl.
  destruct (P <=? T * D) eqn:E6; [lia |]. rewrite Hc. simpl.
  destruct (MAX_UINT256 <? auctionCount st1 + 1) eqn:E7; [lia | reflexivity].
Qed.

Lemma buy_intro extcall now depth sender value id st price st2 b2 st3 b3 st4 :
  active (slot st id) = true ->
  getCurrentPrice now id st = inr price ->
  0 < price <= value ->
  call extcall depth (TokenTransfer (token (slot (store id (deactivate (slot st id)) st) id))
                        sender (amount (slot (store id (deactivate (slot st id)) st) id)))
    (store id (deactivate (slot st id)) st) = inr (st2, b2) ->
  call extcall depth (NativeTransfer (seller (slot st2 id)) price) st2 = inr (st3, b3) ->
  (if price <? value
   then exists b4, call extcall depth (NativeTransfer sender (value - price)) st3
                   = inr (st4, b4)
   else st4 = st3) ->
  buy extcall now depth sender value id st
  = inr (emit (AuctionFinalized id sender price) st4).
Proof.
  intros Hact Hprice Hrange Hc2 Hc3 Hc4. unfold buy. rewrite Hact, Hprice. simpl.
  destruct (price <=? 0) eqn:E1; [lia |]. destruct (value <? price) eqn:E2; [lia |].
  rewrite Hc2. simpl. rewrite Hc3. simpl.
  destruct (price <? value) eqn:E3; simpl.
  - destruct Hc4 as [b4 Hc4]. unfold checked_sub. rewrite E2. simpl. rewrite Hc4. reflexivity.
  - by subst.
Qed.

Lemma cancelAuction_intro extcall depth sender id st st2 b2 :
  sender = seller (slot st id) ->
  active (slot st id) = true ->
  call extcall depth (TokenTransfer (token (slot (store id (deactivate (slot st id)) st) id))
                        (seller (slot (store id (deactivate (slot st id)) st) id))
                        (amount (slot (store id (deactivate (slot st id)) st) id)))
    (store id (deactivate (slot st id)) st) = inr (st2, b2) ->
  cancelAuction extcall depth sender id st = inr (emit (AuctionCancelled id) st2).
Proof.
  intros Hs Hact Hc2. unfold cancelAuction. apply Z.eqb_eq in Hs.
  rewrite Hs, Hact. simpl. rewrite Hc2. reflexivity.
Qed.

Lemma call_tripping id extcall depth o s s' b :
  call extcall depth o s = inr (s', b) -> settledb id s' = false ->
  call (tripping id extcall) depth o s = inr (s', b).
Proof. unfold call, tripping. intros -> ->. reflexivity. Qed.

Lemma call_unsettled env now fuel depth id o s s' b :
  call (extcall_of env now fuel depth) depth o s = inr (s', b) ->
  settledb id s' = false -> settledb id s = false.
Proof.
  intros Hc Hns. destruct (settledb id s) eqn:E; [| reflexivity].
  apply call_extends in Hc; [| intros; eapply extcall_of_extends; eauto].
  rewrite (extends_persist _ _ _ _ Hc E) in Hns. discriminate.
Qed.

Lemma settledb_created id e a st :
  active a = true ->
  settledb id (emit e (store (auctionCount st) a (set_count (auctionCount st + 1) st)))
  = settledb id st.
Proof.
  intros Hact. unfold settledb; simpl.
  change (slot (emit e ?s) id) with (slot s id).
  destruct (decide (auctionCount st = id)) as [<- | Hne].
  - rewrite slot_store_eq, Hact. simpl. rewrite Z.ltb_irrefl. apply andb_false_r.
  - rewrite slot_store_ne by exact Hne.
    replace (id <? auctionCount st + 1) with (id <? auctionCount st); [reflexivity |].
    destruct (id <? auctionCount st) eqn:E1, (id <? auctionCount st + 1) eqn:E2;
      try reflexivity; lia.
Qed.

(** An entry point that ends with the auction not settled never got control
    back from one of its outbound calls with the auction settled. *)
Lemma frame_keeps_settled id env now fuel depth c st st' v :
  run env now fuel depth c st = inr (st', v) ->
  settledb id st' = false ->
  dispatch (tripping id (extcall_of env now fuel depth)) now depth c st = inr (st', v).
Proof.
  rewrite run_unfold. intros H Hns.
  destruct c as [sender tok P T D amt | i | sender value i | sender i]; simpl in *.
  - apply createAuction_inv in H
      as (st1 & b & HP & HT & HD & Hamt & Hmax & Hlt & Hc & Hcount & -> & ->).
    rewrite settledb_created in Hns by reflexivity.
    apply createAuction_intro with (b := b); auto using call_tripping.
  - exact H.
  - apply bind_inr in H as (s & H & [= <- <-]).
    apply buy_inv in H as (price & st2 & b2 & st3 & b3 & st4 & Hact & Hprice & Hrange
                            & Hc2 & Hc3 & Hc4 & ->).
    change (settledb id (emit ?e st4)) with (settledb id st4) in Hns.
    assert (settledb id st3 = false) as Hns3.
    { destruct (price <? value); [| by subst].
      destruct Hc4 as [b4 Hc4]. apply (call_unsettled _ _ _ _ _ _ _ _ _ Hc4) in Hns.
      exact Hns. }
    assert (settledb id st2 = false) as Hns2.
    { apply (call_unsettled _ _ _ _ _ _ _ _ _ Hc3) in Hns3. exact Hns3. }
    rewrite (buy_intro _ now depth sender value i st price st2 b2 st3 b3 st4);
      auto using call_tripping.
    destruct (price <? value); [| exact Hc4].
    destruct Hc4 as [b4 Hc4]. exists b4. by apply call_tripping.
  - apply bind_inr in H as (s & H & [= <- <-]).
    apply cancelAuction_inv in H as (st2 & b2 & Hs & Hact & Hc2 & ->).
    change (settledb id (emit ?e st2)) with (settledb id st2) in Hns.
    rewrite (cancelAuction_intro _ depth sender i st st2 b2); auto using call_tripping.
Qed.

(** A settlement made as a call back into the contract, inside the
    [createAuction] of someone else, stays: the outer call goes on to take
    the next id, and the cancelled auction cannot be bought afterwards. *)
Example nested_settlement_stays :
  exists st', run nesting 100 3 0 (CreateAuction 1 9 500 10 5 3) init = inr (st', 1) /\
    events st' = [AuctionCreated 0 7 9 1000 100 9 10; AuctionCancelled 0;
                  AuctionCreated 1 1 9 500 10 5 3] /\
    active (slot st' 0) = false /\ active (slot st' 1) = true /\
    run honest 120 3 0 (Buy 8 1000 0) st' = inl NotActive /\
    run honest 120 3 0 (CancelAuction 7 0) st' = inl NotActive.
Proof.
  eexists. split; [vm_compute; reflexivity |]. vm_compute. auto 10.
Qed.

(** C1, amended. After a successful [buy] or [cancelAuction] on an auction
    id, made as a transaction or as a call back into the contract, every
    [buy] on that id fails with "Auction not active" and every
    [cancelAuction] on it fails too, with "Auction not active" when the
    caller is the seller and "Not seller" otherwise.  In detail:
    - this holds in every state that further successful calls, at any depth,
      lead to from the state the settlement left;
    - the status is cleared before the first outbound call, so the foreign
      code the settlement calls runs only while the auction is inactive (the
      call gives the same result in a world that reverts whenever it is
      entered with the auction still active), and a call on an inactive
      auction is rejected wherever it comes from;
    - the execution of the settlement, nested calls included, emits exactly
      one terminal notification for the id;
    - an entry point that was running when the settlement was made does not
      undo it: whenever one of its outbound calls comes back with the auction
      settled (it would fail in a world that trips on that), the entry point
      ends with the auction settled;
    - and between transactions: in every state the contract can reach whose
      log holds a terminal notification for the id, the log holds exactly
      one, and [buy] and [cancelAuction] on the id fail as said. *)
Theorem settlement_is_final env now fuel depth c id st st' v :
  wf st ->
  settles c id ->
  run env now fuel depth c st = inr (st', v) ->
  (forall st'', later st' st'' -> forall env' now' fuel' depth' sender value,
     run env' now' fuel' depth' (Buy sender value id) st'' = inl NotActive) /\
  (forall st'', later st' st'' -> forall env' now' fuel' depth' sender,
     run env' now' fuel' depth' (CancelAuction sender id) st''
     = inl (if sender =? seller (slot st id) then NotActive else NotSeller)) /\
  run (guard id env) now fuel depth c st = inr (st', v) /\
  (forall s env' now' fuel' depth' c',
     active (slot s id) = false -> settles c' id ->
     run env' now' fuel' depth' c' s = inl (rejection c' s)) /\
  (exists evs, events st' = events st ++ evs /\ count_terminal id evs = 1%nat) /\
  (forall env' now' fuel' depth' c' s s' v',
     run env' now' fuel' depth' c' s = inr (s', v') ->
     dispatch (tripping id (extcall_of env' now' fuel' depth')) now' depth' c' s
     <> inr (s', v') ->
     settled id s') /\
  (forall s, reachable s -> 0 <= id ->
     (1 <= count_terminal id (events s))%nat ->
     count_terminal id (events s) = 1%nat /\
     (forall env' now' fuel' depth' sender value,
        run env' now' fuel' depth' (Buy sender value id) s = inl NotActive) /\
     (forall env' now' fuel' depth' sender,
        run env' now' fuel' depth' (CancelAuction sender id) s
        = inl (if sender =? seller (slot s id) then NotActive else NotSeller))).
Proof.
  intros Hwf Hc Hrun.
  assert (active (slot st id) = true /\ settled id st' /\
          slot st' id = deactivate (slot st id) /\
          exists evs, events st' = events st ++ evs /\ count_terminal id evs = 1%nat)
    as (Hact & Hs & Hslot & Hev).
  { destruct c as [| | sender value i | sender i]; simpl in Hc; try contradiction; subst i.
    - apply run_buy_effects in Hrun
        as (price & evs & new & Hact & _ & _ & Hs & Hslot & Hev & Hz & _); [| exact Hwf].
      repeat split; try apply Hs; auto.
      exists (evs ++ [AuctionFinalized id sender price]). split; [exact Hev |].
      rewrite count_terminal_app, Hz. unfold count_terminal. simpl.
      rewrite filter_cons. simpl. rewrite Z.eqb_refl. by case_decide.
    - apply run_cancelAuction_effects in Hrun
        as (evs & new & Hact & _ & Hs & Hslot & Hev & Hz & _); [| exact Hwf].
      repeat split; try apply Hs; auto.
      exists (evs ++ [AuctionCancelled id]). split; [exact Hev |].
      rewrite count_terminal_app, Hz. unfold count_terminal. simpl.
      rewrite filter_cons. simpl. rewrite Z.eqb_refl. by case_decide. }
  assert (forall st'', later st' st'' ->
            active (slot st'' id) = false /\ seller (slot st'' id) = seller (slot st id))
    as Hlater.
  { intros st'' Hl. apply later_extends in Hl.
    destruct (settled_extends 0 id st' st'' Hs Hl) as ([_ Hina] & Heq & _).
    split; [exact Hina |]. by rewrite Heq, Hslot. }
  split; [| split; [| split; [| split; [| split; [| split]]]]].
  - intros st'' Hl env' now' fuel' depth' sender value.
    destruct (Hlater st'' Hl) as [Hina _].
    by rewrite (inactive_rejects env' now' fuel' depth' (Buy sender value id) id st'' Hina).
  - intros st'' Hl env' now' fuel' depth' sender.
    destruct (Hlater st'' Hl) as [Hina Hseller].
    rewrite (inactive_rejects env' now' fuel' depth' (CancelAuction sender id) id st'' Hina)
      by reflexivity.
    simpl. by rewrite Hseller.
  - rewrite <- (run_guard id env now fuel depth c st); auto.
    by apply wf_active.
  - intros s env' now' fuel' depth' c' Hina Hc'. by apply inactive_rejects with (id := id).
  - exact Hev.
  - intros env' now' fuel' depth' c' s s' v' Hr Hne. apply settledb_settled.
    destruct (settledb id s') eqn:E; [reflexivity |].
    destruct Hne. by apply frame_keeps_settled.
  - intros s Hr Hid Hone.
    destruct (reachable_steady s Hr) as (_ & _ & evs & E & C).
    simpl in E. specialize (C id). rewrite <- E in C.
    assert (settledb id init = false) as Hinit.
    { unfold settledb; simpl. destruct (id <? 0) eqn:E0; [lia | reflexivity]. }
    rewrite Hinit in C.
    destruct (settledb id s) eqn:Hsb; [| rewrite C in Hone; lia].
    apply settledb_settled in Hsb as [_ Hina].
    split; [exact C |]. split.
    + intros env' now' fuel' depth' sender value.
      by rewrite (inactive_rejects env' now' fuel' depth' (Buy sender value id) id s Hina).
    + intros env' now' fuel' depth' sender.
      by rewrite (inactive_rejects env' now' fuel' depth' (CancelAuction sender id) id s Hina).
Qed.

Lemma settlement_is_final_witness :
  (forall st'', later s_sold st'' -> forall env' now' fuel' depth' sender value,
     run env' now' fuel' depth' (Buy sender value 0) st'' = inl NotActive) /\
  (forall st'', later s_sold st'' -> forall env' now' fuel' depth' sender,
     run env' now' fuel' depth' (CancelAuction sender 0) st''
     = inl (if sender =? seller (slot s_created 0) then NotActive else NotSeller)) /\
  run (guard 0 honest) 150 3 0 (Buy 8 600 0) s_created = inr (s_sold, 0) /\
  (forall s env' now' fuel' depth' c',
     active (slot s 0) = false -> settles c' 0 ->
     run env' now' fuel' depth' c' s = inl (rejection c' s)) /\
  (exists evs, events s_sold = events s_created ++ evs /\ count_terminal 0 evs = 1%nat) /\
  (forall env' now' fuel' depth' c' s s' v',
     run env' now' fuel' depth' c' s = inr (s', v') ->
     dispatch (tripping 0 (extcall_of env' now' fuel' depth')) now' depth' c' s
     <> inr (s', v') ->
     settled 0 s') /\
  (forall s, reachable s -> 0 <= 0 ->
     (1 <= count_terminal 0 (events s))%nat ->
     count_terminal 0 (events s) = 1%nat /\
     (forall env' now' fuel' depth' sender value,
        run env' now' fuel' depth' (Buy sender value 0) s = inl NotActive) /\
     (forall env' now' fuel' depth' sender,
        run env' now' fuel' depth' (CancelAuction sender 0) s
        = inl (if sender =? seller (slot s 0) then NotActive else NotSeller))).
Proof.
  apply (settlement_is_final honest 150 3 0%nat (Buy 8 600 0) 0 s_created s_sold 0).
  - apply s_created_wf.
  - reflexivity.
  - vm_compute. reflexivity.
Defined.
